(** * mattermost-cloud: cluster utilities and installation databases

    A shallow embedding of two pieces of the provisioning server:

    - package [model], file [database.go]: the closed list of supported
      installation databases and the MySQL operator backend;
    - package [provisioner], file [utility_group.go]: the handle that
      creates, upgrades and destroys the per-cluster utilities in order and
      records each utility's actual version on the cluster.

    Go's [error] results are values of [errors.error]; a [nil] error is
    [None].  Calls that reach outside the process (Helm, Kubernetes, the
    utilities themselves) act on an abstract world and leave an event in
    the run's journal, so that the order of calls can be stated. *)

From Stdlib Require Import String Ascii List Bool Permutation.
From stdpp Require Import base option strings list gmap fin_maps.
Import ListNotations.

(** ** github.com/pkg/errors *)

Module errors.

  (** [errors.New] makes a leaf; [errors.Wrap] keeps the cause and puts a
      message in front of it.  Stack traces are not modelled. *)
Inductive error : Type :=
  | New (message : string)
  | Wrap (cause : error) (message : string).

  (** The [Error()] method: a wrapped error prints its message, a colon and
      the cause. *)
Fixpoint Error (e : error) : string :=
    match e with
    | New message => message
    | Wrap cause message => message +:+ ": " +:+ Error cause
    end.

  (** [errors.Cause]: the innermost error. *)
Fixpoint Cause (e : error) : error :=
    match e with
    | New message => New message
    | Wrap cause _ => Cause cause
    end.

End errors.

(** Substring test, used to say what an error message mentions. *)
Fixpoint contains (needle hay : string) : bool :=
  String.prefix needle hay ||
  match hay with
  | EmptyString => false
  | String _ rest => contains needle rest
  end.

(** ** github.com/sirupsen/logrus

    A [FieldLogger] is modelled by the entries written to it so far. *)

Module log.

Inductive Level : Type := ErrorLevel | WarnLevel | InfoLevel.

Record Entry : Type := mkEntry { level : Level; message : string }.

Definition FieldLogger : Type := list Entry.

Definition Info (msg : string) (logger : FieldLogger) : FieldLogger :=
    logger ++ [mkEntry InfoLevel msg].

Definition Warn (msg : string) (logger : FieldLogger) : FieldLogger :=
    logger ++ [mkEntry WarnLevel msg].

Definition Error (msg : string) (logger : FieldLogger) : FieldLogger :=
    logger ++ [mkEntry ErrorLevel msg].

Definition isWarn (e : Entry) : bool :=
    match level e with WarnLevel => true | _ => false end.

End log.

(** ** package model *)

Module model.

Import errors.

  (** *** Installation databases (database.go) *)

Definition InstallationDatabaseMysqlOperator : string := "mysql-operator".
Definition InstallationDatabaseSingleTenantRDSMySQL : string := "aws-rds".
Definition InstallationDatabaseSingleTenantRDSPostgres : string :=
    "aws-rds-postgres".
Definition InstallationDatabaseMultiTenantRDSMySQL : string :=
    "aws-multitenant-rds".
Definition InstallationDatabaseMultiTenantRDSPostgres : string :=
    "aws-multitenant-rds-postgres".

Definition DatabaseEngineTypeMySQL : string := "mysql".
Definition DatabaseEngineTypePostgres : string := "postgres".

  (** The [switch] of [IsSupportedDatabase]: the cases are tried from top
      to bottom, each with an empty body (Go does not fall through), and
      only [default] returns false. *)
Definition IsSupportedDatabase (database : string) : bool :=
    if String.eqb database InstallationDatabaseSingleTenantRDSMySQL then true
    else if String.eqb database InstallationDatabaseSingleTenantRDSPostgres then true
    else if String.eqb database InstallationDatabaseMultiTenantRDSMySQL then true
    else if String.eqb database InstallationDatabaseMultiTenantRDSPostgres then true
    else if String.eqb database InstallationDatabaseMysqlOperator then true
    else false.

  (** [Installation.InternalDatabase], on the installation's database
      field. *)
Definition InternalDatabase (database : string) : bool :=
    String.eqb database InstallationDatabaseMysqlOperator.

  (** *** MysqlOperatorDatabase

      The struct has no field.  Each method gets the store (which it never
      uses) and the logger, and returns the logger as written to, with the
      error. *)
Section MysqlOperatorDatabase.

Context {Store : Type}.

Definition Provision (store : Store) (logger : log.FieldLogger)
      : log.FieldLogger * option error :=
      (log.Info "MySQL operator database requires no pre-provisioning; skipping..." logger,
       None).

Definition Snapshot (store : Store) (logger : log.FieldLogger)
      : log.FieldLogger * option error :=
      (log.Error "Snapshotting is not supported by the MySQL operator." logger,
       Some (New "not implemented")).

Definition Teardown (store : Store) (keepData : bool) (logger : log.FieldLogger)
      : log.FieldLogger * option error :=
      let logger := log.Info "MySQL operator database requires no teardown; skipping..." logger in
      let logger :=
        if keepData
        then log.Warn "Database preservation was requested, but isn't currently possible with the MySQL operator" logger
        else logger in
      (logger, None).

End MysqlOperatorDatabase.

(** [GenerateDatabaseSpecAndSecret] of the MySQL operator database: the
    three results are [nil].  [Spec] and [Secret] stand for the operator's
    [Database] and for Kubernetes' [Secret]. *)
Definition GenerateDatabaseSpecAndSecret {Store Spec Secret : Type}
    (store : Store) (logger : log.FieldLogger)
  : option Spec * option Secret * option error :=
  (None, None, None).

  (** *** Cluster

      Modelled from the spec: the [Cluster] struct and its two methods
      [DesiredUtilityVersion] and [SetUtilityActualVersion] (cluster.go and
      utility.go are not among the files verified here).  The spec gives the
      cluster "a mapping from utility canonical name → desired version and
      → actual version", lets the core "read desired utility version by
      canonical name" and "write actual version by canonical name", and
      says that the lookup can fail.  Both methods return an [error] that
      the provisioner tests; when they fail is not said, so the failure of
      each is a parameter ([lookupFault], [persistFault]). *)
Record Cluster : Type := mkCluster {
    DesiredVersions : gmap string string;
    ActualVersions : gmap string string
  }.

Section ClusterMethods.

Variable lookupFault : Cluster → string → option error.
Variable persistFault : Cluster → string → string → option error.

    (** Modelled from the spec: a missing entry means "not requested" and
        reads as the empty version. *)
Definition DesiredUtilityVersion (c : Cluster) (utility : string)
      : error + string :=
      match lookupFault c utility with
      | Some e => inl e
      | None => inr (default "" (DesiredVersions c !! utility))
      end.

    (** Modelled from the spec: a successful write sets the entry of
        [utility] in the actual versions; a failed one leaves the record as
        it was. *)
Definition SetUtilityActualVersion (c : Cluster) (utility version : string)
      : Cluster * option error :=
      match persistFault c utility version with
      | Some e => (c, Some e)
      | None =>
          (mkCluster (DesiredVersions c) (<[utility := version]> (ActualVersions c)),
           None)
      end.

End ClusterMethods.

End model.


(** ** package provisioner (utility_group.go) *)

Module provisioner.

Import errors model.

(** *** The Utility interface

    A utility is a service that runs once per cluster.  [W] is the world
    the utilities live in: the Kubernetes cluster, Helm, the cloud account
    and the fields of the handles themselves.  [CreateOrUpgrade] and
    [Destroy] change it and may fail; [ActualVersion] reads the "last
    reported actual version, at the time of Create or Upgrade";
    [DesiredVersion] is the target the handle was built with and [Name] is
    the canonical name, both fixed for the life of the handle. *)
Record Utility (W : Type) : Type := mkUtility {
  CreateOrUpgrade : W → W * option error;
  Destroy : W → W * option error;
  ActualVersion : W → string;
  DesiredVersion : string;
  Name : string
}.

Arguments mkUtility {W}.
Arguments CreateOrUpgrade {W}.
Arguments Destroy {W}.
Arguments ActualVersion {W}.
Arguments DesiredVersion {W}.
Arguments Name {W}.

(** What the file takes from the rest of the repository and from its
    tooling, none of it among the files verified here: the two Helm helpers
    (helm.go), the error paths of the two [Cluster] methods, the canonical
    names of package [model], and the constructors of the four utility
    handles.  The [kops] command, the provisioner, the AWS client and the
    loggers that the Go code passes to them are part of the world. *)
Class Collaborators (W : Type) : Type := {
  installHelm : gmap string string → W → W * option error;
  helmRepoAdd : string → string → W → W * option error;
  lookupFault : Cluster → string → option error;
  persistFault : Cluster → string → string → option error;
  NginxCanonicalName : string;
  FluentbitCanonicalName : string;
  TeleportCanonicalName : string;
  newNginxHandle : string → error + Utility W;
  newPrometheusHandle : Cluster → error + Utility W;
  newFluentbitHandle : string → error + Utility W;
  newTeleportHandle : Cluster → string → error + Utility W
}.

(** The handle of a group: the utilities in the order in which they are
    deployed.  The [kops], [provisioner] and [cluster] pointers of the Go
    struct point into the state the methods run on. *)
Record utilityGroup (W : Type) : Type := mkUtilityGroup {
  utilities : list (Utility W)
}.

Arguments mkUtilityGroup {W}.
Arguments utilities {W}.

(** List of repos to add during helm setup. *)
Definition helmRepos : gmap string string :=
  {[ "stable" := "https://kubernetes-charts.storage.googleapis.com";
     "chartmuseum" := "https://chartmuseum.internal.core.cloud.mattermost.com";
     "ingress-nginx" := "https://kubernetes.github.io/ingress-nginx" ]}.

(** *** Runs

    A method of the group runs on the world and on the cluster record that
    [group.cluster] points to.  It returns the state it leaves, the journal
    of the calls it made, and either an error or a value. *)
Record State (W : Type) : Type := mkState {
  world : W;
  cluster : Cluster
}.

Arguments mkState {W}.
Arguments world {W}.
Arguments cluster {W}.

Inductive Event (W : Type) : Type :=
| LogInfo (message : string)
| CallInstallHelm (repos : gmap string string) (err : option error)
| CallHelmRepoAdd (repoName repoURL : string) (err : option error)
| CallCreateOrUpgrade (utility : Utility W) (err : option error)
| CallDestroy (utility : Utility W) (err : option error)
| CallActualVersion (utility : Utility W) (version : string)
| CallSetUtilityActualVersion (name version : string) (err : option error).

Arguments LogInfo {W}.
Arguments CallInstallHelm {W}.
Arguments CallHelmRepoAdd {W}.
Arguments CallCreateOrUpgrade {W}.
Arguments CallDestroy {W}.
Arguments CallActualVersion {W}.
Arguments CallSetUtilityActualVersion {W}.

Record Run (W A : Type) : Type := mkRun {
  final : State W;
  journal : list (Event W);
  outcome : error + A
}.

Arguments mkRun {W A}.
Arguments final {W A}.
Arguments journal {W A}.
Arguments outcome {W A}.

Definition M (W A : Type) : Type := State W → Run W A.

Section Monad.

Context {W : Type}.

Definition ret {A : Type} (a : A) : M W A :=
  λ s, mkRun s [] (inr a).

(** A Go function that reaches [return err]. *)
Definition throw {A : Type} (e : error) : M W A :=
  λ s, mkRun s [] (inl e).

(** Sequencing: an error ends the run, as every call in the file is
    followed by [if err != nil { return ... }]. *)
Definition bind {A B : Type} (m : M W A) (k : A → M W B) : M W B :=
  λ s,
    let r := m s in
    match outcome r with
    | inl e => mkRun (final r) (journal r) (inl e)
    | inr a =>
        let r' := k a (final r) in
        mkRun (final r') (journal r ++ journal r') (outcome r')
    end.

(** [if err != nil { return errors.Wrap(err, message) }] around a call. *)
Definition wrapping {A : Type} (message : string) (m : M W A) : M W A :=
  λ s,
    let r := m s in
    match outcome r with
    | inl e => mkRun (final r) (journal r) (inl (Wrap e message))
    | inr a => r
    end.

(** A call that acts on the world and returns an [error]. *)
Definition external (f : W → W * option error) (ev : option error → Event W)
  : M W unit :=
  λ s,
    let '(w, err) := f (world s) in
    mkRun (mkState w (cluster s)) [ev err]
      (match err with Some e => inl e | None => inr tt end).

Definition emit (ev : Event W) : M W unit :=
  λ s, mkRun s [ev] (inr tt).

(** [for _, x := range l { body }] over a slice. *)
Fixpoint forEach {A : Type} (body : A → M W unit) (l : list A) : M W unit :=
  match l with
  | [] => ret tt
  | x :: rest => bind (body x) (λ _, forEach body rest)
  end.

End Monad.

#[global] Instance M_ret {W : Type} : MRet (M W) := @ret W.
#[global] Instance M_bind {W : Type} : MBind (M W) := λ A B k m, bind m k.

Section UtilityGroup.

Context {W : Type} `{!Collaborators W}.

(** [installHelm(group.kops, helmRepos, logger)]. *)
Definition callInstallHelm (repos : gmap string string) : M W unit :=
  external (installHelm repos) (CallInstallHelm repos).

(** [helmRepoAdd(repoName, repoURL, logger)]. *)
Definition callHelmRepoAdd (repo : string * string) : M W unit :=
  external (helmRepoAdd repo.1 repo.2) (CallHelmRepoAdd repo.1 repo.2).

(** [utility.CreateOrUpgrade()], [utility.Destroy()] and
    [utility.ActualVersion()]. *)
Definition callCreateOrUpgrade (utility : Utility W) : M W unit :=
  external (CreateOrUpgrade utility) (CallCreateOrUpgrade utility).

Definition callDestroy (utility : Utility W) : M W unit :=
  external (Destroy utility) (CallDestroy utility).

Definition callActualVersion (utility : Utility W) : M W string :=
  λ s,
    let version := ActualVersion utility (world s) in
    mkRun s [CallActualVersion utility version] (inr version).

(** [group.cluster.SetUtilityActualVersion(name, version)]. *)
Definition callSetUtilityActualVersion (name version : string) : M W unit :=
  λ s,
    let '(c, err) :=
      SetUtilityActualVersion persistFault (cluster s) name version in
    mkRun (mkState (world s) c) [CallSetUtilityActualVersion name version err]
      (match err with Some e => inl e | None => inr tt end).

(** [newUtilityGroupHandle] returns a pointer and an error; the pointer is
    [nil] on each error path. *)
Definition newUtilityGroupHandle (cluster : Cluster)
  : option (utilityGroup W) * option error :=
  match DesiredUtilityVersion lookupFault cluster NginxCanonicalName with
  | inl err => (None, Some err)
  | inr desiredVersion =>
  match newNginxHandle desiredVersion with
  | inl err => (None, Some (Wrap err "failed to get handle for NGINX"))
  | inr nginx =>
  match newPrometheusHandle cluster with
  | inl err => (None, Some (Wrap err "failed to get handle for Prometheus"))
  | inr prometheus =>
  match DesiredUtilityVersion lookupFault cluster FluentbitCanonicalName with
  | inl err => (None, Some err)
  | inr desiredVersion =>
  match newFluentbitHandle desiredVersion with
  | inl err => (None, Some (Wrap err "failed to get handle for Fluentbit"))
  | inr fluentbit =>
  match DesiredUtilityVersion lookupFault cluster TeleportCanonicalName with
  | inl err => (None, Some err)
  | inr desiredVersion =>
  match newTeleportHandle cluster desiredVersion with
  | inl err => (None, Some (Wrap err "failed to get handle for Teleport"))
  | inr teleport =>
      (* the order of utilities here matters; the utilities are deployed
         in order to resolve dependencies between them *)
      (Some (mkUtilityGroup [nginx; prometheus; fluentbit; teleport]), None)
  end end end end end end end.

(** [CreateUtilityGroup] is [return nil]. *)
Definition CreateUtilityGroup (group : utilityGroup W) : M W unit :=
  ret tt.

(** The body of the loop of [DestroyUtilityGroup]. *)
Definition destroyUtility (utility : Utility W) : M W unit :=
  wrapping "failed to destroy one of the cluster utilities"
    (callDestroy utility) ;;
  version ← callActualVersion utility ;
  callSetUtilityActualVersion (Name utility) version.

Definition DestroyUtilityGroup (group : utilityGroup W) : M W unit :=
  forEach destroyUtility (utilities group).

(** The body of the second loop of [ProvisionUtilityGroup]. *)
Definition upgradeUtility (utility : Utility W) : M W unit :=
  wrapping "failed to upgrade one of the cluster utilities"
    (callCreateOrUpgrade utility) ;;
  version ← callActualVersion utility ;
  callSetUtilityActualVersion (Name utility) version.

(** [ProvisionUtilityGroup].  [helmRepos] is a Go map, and [range] over a
    map visits its entries in an order that the language leaves open:
    [repoOrder] is the order of this run. *)
Definition ProvisionUtilityGroup (group : utilityGroup W)
    (repoOrder : list (string * string)) : M W unit :=
  wrapping "failed to set up Helm as a prerequisite to installing the cluster utilities"
    (callInstallHelm helmRepos) ;;
  emit (LogInfo "Adding new Helm repos.") ;;
  forEach (λ repo, wrapping "unable to add helm repos" (callHelmRepoAdd repo))
    repoOrder ;;
  forEach upgradeUtility (utilities group).

(** [repoOrder] is an order in which [range helmRepos] can run: each entry
    of the map once. *)
Definition rangeOrder (repoOrder : list (string * string)) : Prop :=
  repoOrder ≡ₚ map_to_list helmRepos.

(** *** Reading a journal *)

Definition createResults (j : list (Event W))
  : list (Utility W * option error) :=
  omap (λ ev, match ev with
              | CallCreateOrUpgrade u err => Some (u, err)
              | _ => None
              end) j.

Definition destroyResults (j : list (Event W))
  : list (Utility W * option error) :=
  omap (λ ev, match ev with
              | CallDestroy u err => Some (u, err)
              | _ => None
              end) j.

(** The utilities on which [CreateOrUpgrade] (resp. [Destroy]) was called,
    in the order of the calls. *)
Definition createCalls (j : list (Event W)) : list (Utility W) :=
  (createResults j).*1.

Definition destroyCalls (j : list (Event W)) : list (Utility W) :=
  (destroyResults j).*1.

(** What [ActualVersion()] returned, call by call. *)
Definition reported (j : list (Event W)) : list (Utility W * string) :=
  omap (λ ev, match ev with
              | CallActualVersion u v => Some (u, v)
              | _ => None
              end) j.

(** The writes to the cluster record that succeeded, in order. *)
Definition persisted (j : list (Event W)) : list (string * string) :=
  omap (λ ev, match ev with
              | CallSetUtilityActualVersion n v None => Some (n, v)
              | _ => None
              end) j.

(** The chart repositories whose registration was attempted, in order. *)
Definition repoAdds (j : list (Event W)) : list (string * string) :=
  omap (λ ev, match ev with
              | CallHelmRepoAdd n url _ => Some (n, url)
              | _ => None
              end) j.

(** Writing a list of (name, version) pairs into a version mapping, first
    pair first. *)
Definition replay (writes : list (string * string)) (m : gmap string string)
  : gmap string string :=
  foldl (λ acc nv, <[nv.1 := nv.2]> acc) m writes.

(** *** The two passes over the utilities

    [ProvisionUtilityGroup] and [DestroyUtilityGroup] end in the same loop,
    up to the method called on each utility and the message put on its
    error. *)
Inductive Pass : Type := Provisioning | Destroying.

Definition passCall (pass : Pass) (u : Utility W) : W → W * option error :=
  match pass with
  | Provisioning => CreateOrUpgrade u
  | Destroying => Destroy u
  end.

Definition passEvent (pass : Pass) (u : Utility W) (err : option error)
  : Event W :=
  match pass with
  | Provisioning => CallCreateOrUpgrade u err
  | Destroying => CallDestroy u err
  end.

Definition passMessage (pass : Pass) : string :=
  match pass with
  | Provisioning => "failed to upgrade one of the cluster utilities"
  | Destroying => "failed to destroy one of the cluster utilities"
  end.

Definition passBody (pass : Pass) : Utility W → M W unit :=
  match pass with
  | Provisioning => upgradeUtility
  | Destroying => destroyUtility
  end.

Definition passResults (pass : Pass) (j : list (Event W))
  : list (Utility W * option error) :=
  match pass with
  | Provisioning => createResults j
  | Destroying => destroyResults j
  end.

Definition runGroup (pass : Pass) (group : utilityGroup W)
    (repoOrder : list (string * string)) : M W unit :=
  match pass with
  | Provisioning => ProvisionUtilityGroup group repoOrder
  | Destroying => DestroyUtilityGroup group
  end.

(** The three events of a utility that went through: the call, the
    version read back, the write to the cluster record. *)
Definition settled (pass : Pass) (u : Utility W) (v : string)
    (err : option error) : list (Event W) :=
  [passEvent pass u None; CallActualVersion u v;
   CallSetUtilityActualVersion (Name u) v err].

(** The cluster record after [name] got [version]. *)
Definition recorded (c : Cluster) (name version : string) : Cluster :=
  mkCluster (DesiredVersions c) (<[name := version]> (ActualVersions c)).

(** The loop as a big-step relation: from the utilities still to visit
    and the state, to the run.  A failed call or a failed write ends the
    run where it is; otherwise the run goes on with the rest. *)
Inductive PassRun (pass : Pass)
  : list (Utility W) → State W → Run W unit → Prop :=
| run_end s :
    PassRun pass [] s (mkRun s [] (inr tt))
| run_call_failed u rest s w e :
    passCall pass u (world s) = (w, Some e) →
    PassRun pass (u :: rest) s
      (mkRun (mkState w (cluster s)) [passEvent pass u (Some e)]
         (inl (Wrap e (passMessage pass))))
| run_write_failed u rest s w e :
    passCall pass u (world s) = (w, None) →
    persistFault (cluster s) (Name u) (ActualVersion u w) = Some e →
    PassRun pass (u :: rest) s
      (mkRun (mkState w (cluster s))
         (settled pass u (ActualVersion u w) (Some e)) (inl e))
| run_next u rest s w r :
    passCall pass u (world s) = (w, None) →
    persistFault (cluster s) (Name u) (ActualVersion u w) = None →
    PassRun pass rest
      (mkState w (recorded (cluster s) (Name u) (ActualVersion u w))) r →
    PassRun pass (u :: rest) s
      (mkRun (final r)
         (settled pass u (ActualVersion u w) None ++ journal r) (outcome r)).

(** An event of the Helm set-up, before the utilities are visited. *)
Definition helmEvent (ev : Event W) : Prop :=
  match ev with
  | LogInfo _ | CallInstallHelm _ _ | CallHelmRepoAdd _ _ _ => True
  | _ => False
  end.

(** *** Conditions on the utilities and on the construction *)

(** No outside change: a utility whose [CreateOrUpgrade] succeeds reports
    the same version whenever that happens. *)
Definition steady (us : list (Utility W)) : Prop :=
  ∀ u, u ∈ us →
    ∀ w1 w1' w2 w2',
      CreateOrUpgrade u w1 = (w1', None) →
      CreateOrUpgrade u w2 = (w2', None) →
      ActualVersion u w1' = ActualVersion u w2'.

(** A utility whose [CreateOrUpgrade] succeeds is at its desired
    version. *)
Definition reconciling (us : list (Utility W)) : Prop :=
  ∀ u, u ∈ us →
    ∀ w w', CreateOrUpgrade u w = (w', None) →
      ActualVersion u w' = DesiredVersion u.

(** One of the seven steps of [newUtilityGroupHandle] fails: a lookup of
    a desired version, or the construction of a handle from what was
    looked up. *)
Definition constructionFails (c : Cluster) : Prop :=
  (∃ e, DesiredUtilityVersion lookupFault c NginxCanonicalName = inl e) ∨
  (∃ v e, DesiredUtilityVersion lookupFault c NginxCanonicalName = inr v ∧
          newNginxHandle v = inl e) ∨
  (∃ e, newPrometheusHandle c = inl e) ∨
  (∃ e, DesiredUtilityVersion lookupFault c FluentbitCanonicalName = inl e) ∨
  (∃ v e, DesiredUtilityVersion lookupFault c FluentbitCanonicalName = inr v ∧
          newFluentbitHandle v = inl e) ∨
  (∃ e, DesiredUtilityVersion lookupFault c TeleportCanonicalName = inl e) ∨
  (∃ v e, DesiredUtilityVersion lookupFault c TeleportCanonicalName = inr v ∧
          newTeleportHandle c v = inl e).

(** The four handles are the ones the constructors give for cluster
    [c]. *)
Definition builtFrom (c : Cluster)
    (nginx prometheus fluentbit teleport : Utility W) : Prop :=
  (∃ v, DesiredUtilityVersion lookupFault c NginxCanonicalName = inr v ∧
        newNginxHandle v = inr nginx) ∧
  newPrometheusHandle c = inr prometheus ∧
  (∃ v, DesiredUtilityVersion lookupFault c FluentbitCanonicalName = inr v ∧
        newFluentbitHandle v = inr fluentbit) ∧
  (∃ v, DesiredUtilityVersion lookupFault c TeleportCanonicalName = inr v ∧
        newTeleportHandle c v = inr teleport).

(** *** More readers, and the shape of a pass *)

(** The attempts to write a version, with their result. *)
Definition writeResults (j : list (Event W))
  : list (string * string * option error) :=
  omap (λ ev, match ev with
              | CallSetUtilityActualVersion n v err => Some (n, v, err)
              | _ => None
              end) j.

(** The calls of [installHelm], with their result. *)
Definition installResults (j : list (Event W)) : list (option error) :=
  omap (λ ev, match ev with
              | CallInstallHelm _ err => Some err
              | _ => None
              end) j.

(** The pass that a method does not make. *)
Definition otherPass (pass : Pass) : Pass :=
  match pass with
  | Provisioning => Destroying
  | Destroying => Provisioning
  end.

(** The events of the utilities that went through, with the version each
    one reported. *)
Definition blocks (pass : Pass) (done : list (Utility W * string))
  : list (Event W) :=
  concat ((λ uv : Utility W * string, settled pass uv.1 uv.2 None) <$> done).

(** How a pass ends: after the last utility, on a call that failed, or on
    a write that failed. *)
Inductive Ending : Type :=
| Completed
| CallFailed (u : Utility W) (e : error)
| WriteFailed (u : Utility W) (v : string) (e : error).

Definition endingEvents (pass : Pass) (x : Ending) : list (Event W) :=
  match x with
  | Completed => []
  | CallFailed u e => [passEvent pass u (Some e)]
  | WriteFailed u v e => settled pass u v (Some e)
  end.

Definition endingOutcome (pass : Pass) (x : Ending) : error + unit :=
  match x with
  | Completed => inr tt
  | CallFailed _ e => inl (Wrap e (passMessage pass))
  | WriteFailed _ _ e => inl e
  end.

(** The utility on which the pass stopped, if it did. *)
Definition endingAt (x : Ending) : list (Utility W) :=
  match x with
  | Completed => []
  | CallFailed u _ | WriteFailed u _ _ => [u]
  end.

End UtilityGroup.

End provisioner.


(** ** A small cluster to run the group on

    Concrete utilities and collaborators on which the definitions above can
    be evaluated.  The world is the set of Helm releases present in the
    cluster, each with the chart version deployed. *)

Module scenario.

Import errors model provisioner.

Abbreviation World := (gmap string string).

(** A utility that deploys the chart [name] at version [desired] and
    reports the version it finds deployed. *)
Definition chart (name desired : string) : Utility World :=
  mkUtility
    (λ w, (<[name := desired]> w, None))
    (λ w, (delete name w, None))
    (λ w, default "" (w !! name))
    desired
    name.

(** A utility whose deployment and removal both fail with [cause]. *)
Definition broken (name desired cause : string) : Utility World :=
  mkUtility
    (λ w, (w, Some (New cause)))
    (λ w, (w, Some (New cause)))
    (λ w, default "" (w !! name))
    desired
    name.

#[global] Instance healthy : Collaborators World := {|
  installHelm := λ _ w, (w, None);
  helmRepoAdd := λ _ _ w, (w, None);
  lookupFault := λ _ _, None;
  persistFault := λ _ _ _, None;
  NginxCanonicalName := "nginx";
  FluentbitCanonicalName := "fluentbit";
  TeleportCanonicalName := "teleport";
  newNginxHandle := λ v, inr (chart "nginx" v);
  newPrometheusHandle :=
    λ c, inr (chart "prometheus" (default "" (DesiredVersions c !! "prometheus")));
  newFluentbitHandle := λ v, inr (chart "fluentbit" v);
  newTeleportHandle := λ _ v, inr (chart "teleport" v)
|}.

(** Cluster C of the spec's scenario: two desired versions, no actual
    version. *)
Definition clusterC : Cluster :=
  mkCluster {[ "ingress" := "v2"; "metrics" := "v5" ]} ∅.

Definition ingress : Utility World := chart "ingress" "v2".
Definition metrics : Utility World := chart "metrics" "v5".

Definition groupC : utilityGroup World := mkUtilityGroup [ingress; metrics].

Definition startC : State World := mkState ∅ clusterC.

(** One of the six orders in which [range helmRepos] can run. *)
Definition someOrder : list (string * string) :=
  [ ("ingress-nginx", "https://kubernetes.github.io/ingress-nginx");
    ("stable", "https://kubernetes-charts.storage.googleapis.com");
    ("chartmuseum", "https://chartmuseum.internal.core.cloud.mattermost.com") ].

(** A cluster with a desired version for each of the four utilities. *)
Definition clusterD : Cluster :=
  mkCluster {[ "nginx" := "2.15.0"; "prometheus" := "10.4.0";
               "fluentbit" := "2.8.7"; "teleport" := "0.3.0" ]} ∅.

(** The group that [newUtilityGroupHandle] builds for [clusterD]. *)
Definition groupD : utilityGroup World :=
  mkUtilityGroup
    [chart "nginx" "2.15.0"; chart "prometheus" "10.4.0";
     chart "fluentbit" "2.8.7"; chart "teleport" "0.3.0"].

(** A group whose second utility cannot be deployed. *)
Definition groupF : utilityGroup World :=
  mkUtilityGroup
    [chart "nginx" "2.15.0"; broken "prometheus" "10.4.0" "helm timed out";
     chart "fluentbit" "2.8.7"; chart "teleport" "0.3.0"].

Definition startD : State World := mkState ∅ clusterD.

(** Collaborators with faults: [install] is the result of [installHelm],
    [repo] that of [helmRepoAdd] by repository name, [write] that of
    [SetUtilityActualVersion] by utility name, and [fluentbit] makes the
    construction of the Fluentbit handle fail. *)
Definition faulty (install : option error) (repo write : string → option error)
    (fluentbit : option error) : Collaborators World := {|
  installHelm := λ _ w, (w, install);
  helmRepoAdd := λ n _ w, (w, repo n);
  lookupFault := λ _ _, None;
  persistFault := λ _ n _, write n;
  NginxCanonicalName := "nginx";
  FluentbitCanonicalName := "fluentbit";
  TeleportCanonicalName := "teleport";
  newNginxHandle := λ v, inr (chart "nginx" v);
  newPrometheusHandle :=
    λ c, inr (chart "prometheus" (default "" (DesiredVersions c !! "prometheus")));
  newFluentbitHandle :=
    λ v, match fluentbit with
         | Some e => inl e
         | None => inr (chart "fluentbit" v)
         end;
  newTeleportHandle := λ _ v, inr (chart "teleport" v)
|}.

Definition never : string → option error := λ _, None.

(** The fault [e] for the name [name], none for the others. *)
Definition only (name : string) (e : error) : string → option error :=
  λ n, if String.eqb n name then Some e else None.

Definition noHelm : Collaborators World :=
  faulty (Some (New "tiller is not ready")) never never None.

Definition noChartmuseum : Collaborators World :=
  faulty None (only "chartmuseum" (New "repository unreachable")) never None.

Definition noWrite : Collaborators World :=
  faulty None never (only "prometheus" (New "metadata is not valid JSON")) None.

Definition noFluentbit : Collaborators World :=
  faulty None never never (Some (New "kops command is nil")).

End scenario.

(** * Properties *)

(** ** Installation databases *)

Module database_facts.

Import errors model.

(** C3. [IsSupportedDatabase] is true exactly on the five database
    identifiers "mysql-operator", "aws-rds", "aws-rds-postgres",
    "aws-multitenant-rds" and "aws-multitenant-rds-postgres", and false on
    every other string; the empty string is one of those. *)
Theorem IsSupportedDatabase_closed_enumeration :
  (∀ database : string,
     IsSupportedDatabase database = true ↔
       database = "mysql-operator" ∨ database = "aws-rds" ∨
       database = "aws-rds-postgres" ∨ database = "aws-multitenant-rds" ∨
       database = "aws-multitenant-rds-postgres") ∧
  (∀ database : string,
     IsSupportedDatabase database = false ↔
       ¬ (database = "mysql-operator" ∨ database = "aws-rds" ∨
          database = "aws-rds-postgres" ∨ database = "aws-multitenant-rds" ∨
          database = "aws-multitenant-rds-postgres")) ∧
  IsSupportedDatabase "" = false.
Proof.
  assert (Hiff : ∀ database : string,
     IsSupportedDatabase database = true ↔
       database = "mysql-operator" ∨ database = "aws-rds" ∨
       database = "aws-rds-postgres" ∨ database = "aws-multitenant-rds" ∨
       database = "aws-multitenant-rds-postgres").
  { intros database. unfold IsSupportedDatabase,
      InstallationDatabaseSingleTenantRDSMySQL,
      InstallationDatabaseSingleTenantRDSPostgres,
      InstallationDatabaseMultiTenantRDSMySQL,
      InstallationDatabaseMultiTenantRDSPostgres,
      InstallationDatabaseMysqlOperator.
    repeat match goal with
           | |- context [String.eqb database ?s] =>
               destruct (String.eqb_spec database s) as [->|?];
               [split; [intros _; auto 10 | reflexivity] |]
           end.
    split; [discriminate | intros H; exfalso; tauto]. }
  split; [exact Hiff |]. split; [| reflexivity].
  intros database. rewrite <- Hiff.
  destruct (IsSupportedDatabase database); split; congruence.
Qed.

(** C8. Whatever the store and the logger, [Snapshot] on the MySQL
    operator database returns the error "not implemented"; it never
    returns [nil]. *)
Theorem Snapshot_not_implemented :
  ∀ (Store : Type) (store : Store) (logger : log.FieldLogger),
    (Snapshot store logger).2 = Some (New "not implemented") ∧
    (Snapshot store logger).2 ≠ None ∧
    (∀ e, (Snapshot store logger).2 = Some e → Error e = "not implemented").
Proof.
  intros Store store logger. unfold Snapshot; simpl.
  split; [reflexivity |]. split; [discriminate |].
  intros e Hsome. injection Hsome as <-. reflexivity.
Qed.

(** C9. [Teardown] on the MySQL operator database returns [nil] in both
    cases.  With [keepData] it writes, after its info line, one warning
    that preservation is not possible with the MySQL operator; without
    [keepData] it writes the info line alone, so no warning. *)
Theorem Teardown_keepData_warns :
  ∀ (Store : Type) (store : Store) (logger : log.FieldLogger),
    Teardown store true logger =
      (logger ++
       [log.mkEntry log.InfoLevel
          "MySQL operator database requires no teardown; skipping...";
        log.mkEntry log.WarnLevel
          "Database preservation was requested, but isn't currently possible with the MySQL operator"],
       None) ∧
    Teardown store false logger =
      (logger ++
       [log.mkEntry log.InfoLevel
          "MySQL operator database requires no teardown; skipping..."],
       None) ∧
    (∀ entries, (Teardown store false logger).1 = logger ++ entries →
       filter (λ e, log.isWarn e = true) entries = []).
Proof.
  intros Store store logger. unfold Teardown, log.Warn, log.Info.
  split; [| split].
  - simpl. by rewrite <- app_assoc.
  - reflexivity.
  - simpl. intros entries Heq. apply app_inv_head in Heq. by subst entries.
Qed.

End database_facts.

(** ** The utility group *)

Module group_facts.

Import errors model provisioner.

Section Facts.

Context {W : Type} `{!Collaborators W}.

Implicit Types (u : Utility W) (s : State W) (j : list (Event W)).
Implicit Types (us : list (Utility W)) (pass : Pass).

(** Reduce the projections of a run and of a state, and nothing else. *)
Ltac run_fields := cbn [final journal outcome cluster world].

(** *** The loop body and the relation *)

Lemma passBody_step pass u s :
  passBody pass u s =
    let '(w, err) := passCall pass u (world s) in
    match err with
    | Some e =>
        mkRun (mkState w (cluster s)) [passEvent pass u (Some e)]
          (inl (Wrap e (passMessage pass)))
    | None =>
        let v := ActualVersion u w in
        match persistFault (cluster s) (Name u) v with
        | Some e =>
            mkRun (mkState w (cluster s)) (settled pass u v (Some e)) (inl e)
        | None =>
            mkRun (mkState w (recorded (cluster s) (Name u) v))
              (settled pass u v None) (inr tt)
        end
    end.
Proof.
  destruct pass; cbn [passBody passCall passEvent passMessage];
    unfold upgradeUtility, destroyUtility, mbind, M_bind, bind, wrapping,
      callCreateOrUpgrade, callDestroy, external, callActualVersion,
      callSetUtilityActualVersion, SetUtilityActualVersion, settled, recorded.
  - destruct (CreateOrUpgrade u (world s)) as [w [e|]]; cbn; [done|].
    by destruct (persistFault _ _ _).
  - destruct (Destroy u (world s)) as [w [e|]]; cbn; [done|].
    by destruct (persistFault _ _ _).
Qed.

Lemma forEach_PassRun pass us s :
  PassRun pass us s (forEach (passBody pass) us s).
Proof.
  revert s. induction us as [|u rest IH]; intros s; cbn [forEach].
  - apply run_end.
  - unfold bind. rewrite passBody_step.
    destruct (passCall pass u (world s)) as [w [e|]] eqn:Hcall; cbn.
    + by apply run_call_failed.
    + destruct (persistFault (cluster s) (Name u) (ActualVersion u w))
        as [e|] eqn:Hwrite; cbn.
      * by apply run_write_failed.
      * by apply run_next.
Qed.

(** *** Reading the journal of a pass *)

Lemma passResults_app pass j1 j2 :
  passResults pass (j1 ++ j2) = passResults pass j1 ++ passResults pass j2.
Proof. destruct pass; apply omap_app. Qed.

Lemma passResults_nil pass : passResults (W := W) pass [] = [].
Proof. by destruct pass. Qed.

Lemma passResults_settled pass u v err :
  passResults pass (settled pass u v err) = [(u, None)].
Proof. by destruct pass. Qed.

Lemma passResults_failed pass u e :
  passResults pass [passEvent pass u (Some e)] = [(u, Some e)].
Proof. by destruct pass. Qed.

Lemma reported_settled pass u v err :
  reported (settled pass u v err) = [(u, v)].
Proof. by destruct pass. Qed.

Lemma persisted_settled pass u v :
  persisted (settled pass u v None) = [(Name u, v)].
Proof. by destruct pass. Qed.

Lemma persisted_unsettled pass u v e :
  persisted (settled pass u v (Some e)) = [].
Proof. by destruct pass. Qed.

Lemma repoAdds_settled pass u v err : repoAdds (settled pass u v err) = [].
Proof. by destruct pass. Qed.

Lemma reported_app j1 j2 : reported (j1 ++ j2) = reported j1 ++ reported j2.
Proof. apply omap_app. Qed.

Lemma persisted_app j1 j2 :
  persisted (j1 ++ j2) = persisted j1 ++ persisted j2.
Proof. apply omap_app. Qed.

Lemma repoAdds_app j1 j2 : repoAdds (j1 ++ j2) = repoAdds j1 ++ repoAdds j2.
Proof. apply omap_app. Qed.

Lemma helmEvent_quiet pass j :
  Forall helmEvent j →
  passResults pass j = [] ∧ reported j = [] ∧ persisted j = [].
Proof.
  induction 1 as [|ev j Hev _ (IH1 & IH2 & IH3)]; [by destruct pass|].
  destruct ev; try done; destruct pass; cbn; by rewrite ?IH1, ?IH2, ?IH3.
Qed.

(** *** Replaying writes *)

Lemma replay_cons n v writes (m : gmap string string) :
  replay ((n, v) :: writes) m = replay writes (<[n := v]> m).
Proof. done. Qed.

Lemma replay_app writes1 writes2 (m : gmap string string) :
  replay (writes1 ++ writes2) m = replay writes2 (replay writes1 m).
Proof. apply foldl_app. Qed.

Lemma replay_lookup_other n writes (m : gmap string string) :
  n ∉ writes.*1 → replay writes m !! n = m !! n.
Proof.
  revert m. induction writes as [|[n' v'] writes IH]; intros m Hn; [done|].
  cbn in Hn. apply not_elem_of_cons in Hn as [Hne Hn].
  rewrite replay_cons, IH by done. by apply lookup_insert_ne.
Qed.

Lemma replay_lookup_written n v writes (m : gmap string string) :
  NoDup writes.*1 → (n, v) ∈ writes → replay writes m !! n = Some v.
Proof.
  revert m. induction writes as [|[n' v'] writes IH]; intros m Hnd Hin.
  - by apply elem_of_nil in Hin.
  - cbn in Hnd. apply NoDup_cons in Hnd as [Hfresh Hnd].
    rewrite replay_cons. apply elem_of_cons in Hin as [[= -> ->]|Hin].
    + rewrite replay_lookup_other by done. apply lookup_insert_eq.
    + by apply IH.
Qed.

(** Two mappings that agree on a name still agree on it after the same
    writes. *)
Lemma replay_lookup_agree n writes (m1 m2 : gmap string string) :
  m1 !! n = m2 !! n → replay writes m1 !! n = replay writes m2 !! n.
Proof.
  revert m1 m2. induction writes as [|[n' v'] writes IH]; intros m1 m2 Hm; [done|].
  rewrite !replay_cons. apply IH.
  destruct (decide (n' = n)) as [->|Hne].
  - by rewrite !lookup_insert_eq.
  - by rewrite !lookup_insert_ne.
Qed.

(** Writing the same pairs a second time changes nothing. *)
Lemma replay_twice writes (m : gmap string string) :
  replay writes (replay writes m) = replay writes m.
Proof.
  revert m. induction writes as [|[n v] writes IH] using rev_ind; intros m; [done|].
  rewrite !replay_app. cbn. apply map_eq; intros k.
  destruct (decide (n = k)) as [->|Hne].
  - by rewrite !lookup_insert_eq.
  - rewrite !lookup_insert_ne by done.
    rewrite <- (IH m) at 2. apply replay_lookup_agree.
    by rewrite lookup_insert_ne.
Qed.

(** *** What a pass does *)

(** The cluster record at the end is the one at the start with the
    successful writes of the journal, in order; nothing else touches it. *)
Lemma PassRun_cluster pass us s r :
  PassRun pass us s r →
  ActualVersions (cluster (final r)) =
    replay (persisted (journal r)) (ActualVersions (cluster s)) ∧
  DesiredVersions (cluster (final r)) = DesiredVersions (cluster s).
Proof.
  induction 1 as [s|u rest s w e Hcall|u rest s w e Hcall Hwrite
                 |u rest s w r Hcall Hwrite Hrun [IHa IHd]]; run_fields.
  - done.
  - by destruct pass.
  - by rewrite persisted_unsettled.
  - by rewrite persisted_app, persisted_settled, IHa, IHd.
Qed.

(** The calls follow the list. *)
Lemma PassRun_calls pass us s r :
  PassRun pass us s r →
  (passResults pass (journal r)).*1 `prefix_of` us ∧
  (outcome r = inr tt → (passResults pass (journal r)).*1 = us).
Proof.
  induction 1 as [s|u rest s w e Hcall|u rest s w e Hcall Hwrite
                 |u rest s w r Hcall Hwrite Hrun [IHp IHs]]; run_fields.
  - rewrite passResults_nil. split; [apply prefix_nil | done].
  - rewrite passResults_failed. split; [|done].
    apply (prefix_app [u] [] rest), prefix_nil.
  - rewrite passResults_settled. split; [|done].
    apply (prefix_app [u] [] rest), prefix_nil.
  - rewrite passResults_app, passResults_settled. cbn. split.
    + by apply prefix_cons.
    + intros Hok. by rewrite IHs.
Qed.

(** The Helm registrations are not made by the loop over the utilities. *)
Lemma PassRun_repoAdds pass us s r :
  PassRun pass us s r → repoAdds (journal r) = [].
Proof.
  induction 1 as [s|u rest s w e Hcall|u rest s w e Hcall Hwrite
                 |u rest s w r Hcall Hwrite Hrun IH]; run_fields.
  - done.
  - by destruct pass.
  - apply repoAdds_settled.
  - by rewrite repoAdds_app, repoAdds_settled, IH.
Qed.

(** A call that fails is the last event, and what was written before it
    is what the earlier utilities reported. *)
Lemma PassRun_failed_at pass us s r k u e :
  PassRun pass us s r →
  passResults pass (journal r) !! k = Some (u, Some e) →
  us !! k = Some u ∧
  (passResults pass (journal r)).*1 = take (S k) us ∧
  (reported (journal r)).*1 = take k us ∧
  persisted (journal r) =
    (λ uv : Utility W * string, (Name uv.1, uv.2)) <$> reported (journal r) ∧
  outcome r = inl (Wrap e (passMessage pass)) ∧
  ∃ j', journal r = j' ++ [passEvent pass u (Some e)].
Proof.
  intros Hrun. revert k.
  induction Hrun as [s|u' rest s w e' Hcall|u' rest s w e' Hcall Hwrite
                    |u' rest s w r Hcall Hwrite Hrun IH]; intros k; run_fields.
  - by destruct pass.
  - rewrite passResults_failed. destruct k as [|k]; [|done].
    intros [= -> ->]. repeat split; try by destruct pass.
    by exists [].
  - rewrite passResults_settled. by destruct k as [|[|k]].
  - rewrite passResults_app, passResults_settled, reported_app,
      reported_settled, persisted_app, persisted_settled.
    destruct k as [|k]; [done|]. cbn. intros Hk.
    destruct (IH k Hk) as (Hu & Hcalls & Hrep & Hper & Hout & j' & Hj).
    repeat split; try done.
    + by rewrite Hcalls.
    + by rewrite Hrep.
    + by rewrite Hper.
    + exists (settled pass u' (ActualVersion u' w) None ++ j').
      by rewrite Hj.
Qed.

Lemma PassRun_failed_elem pass us s r u e :
  PassRun pass us s r →
  passEvent pass u (Some e) ∈ journal r →
  ∃ k, passResults pass (journal r) !! k = Some (u, Some e).
Proof.
  intros _ Hin. apply list_elem_of_lookup.
  destruct pass; apply list_elem_of_omap; eexists; (split; [exact Hin | done]).
Qed.

(** After a pass that went through, the writes are one per utility, in
    order: its name, and the version it reported in the world that its
    own call left. *)
Lemma PassRun_success pass us s r :
  PassRun pass us s r → outcome r = inr tt →
  Forall2 (λ u (nv : string * string),
             nv.1 = Name u ∧
             ∃ w w', passCall pass u w = (w', None) ∧
                     nv.2 = ActualVersion u w')
    us (persisted (journal r)).
Proof.
  induction 1 as [s|u rest s w e Hcall|u rest s w e Hcall Hwrite
                 |u rest s w r Hcall Hwrite Hrun IH]; run_fields; intros Hok; try done.
  rewrite persisted_app, persisted_settled. cbn.
  constructor; [|by apply IH]. split; [done|]. by exists (world s), w.
Qed.

(** *** The Helm set-up that comes first *)

Lemma helmRepoAdd_loop (repoOrder : list (string * string)) s :
  let r := forEach (λ repo, wrapping "unable to add helm repos"
                              (callHelmRepoAdd repo)) repoOrder s in
  cluster (final r) = cluster s ∧
  Forall helmEvent (journal r) ∧
  repoAdds (journal r) `prefix_of` repoOrder ∧
  (outcome r = inr tt → repoAdds (journal r) = repoOrder).
Proof.
  revert s. induction repoOrder as [|[n url] rest IH]; intros s; cbn [forEach].
  - cbn. repeat split; [constructor | apply prefix_nil].
  - unfold bind, wrapping, callHelmRepoAdd, external. cbn [fst snd].
    destruct (helmRepoAdd n url (world s)) as [w [e|]]; run_fields.
    + repeat split; [by repeat constructor| |done].
      apply (prefix_app [(n, url)] [] rest), prefix_nil.
    + destruct (IH (mkState w (cluster s))) as (Hc & Hj & Hp & Hok).
      destruct (forEach _ rest _) as [s' j' o']. run_fields.
      cbn in Hc, Hj, Hp, Hok. repeat split; [done|by constructor|..].
      * by apply (prefix_cons (n, url)).
      * intros Ho. cbn. by rewrite Hok.
Qed.

(** [ProvisionUtilityGroup], step by step. *)
Lemma ProvisionUtilityGroup_steps (group : utilityGroup W)
    (repoOrder : list (string * string)) s :
  ProvisionUtilityGroup group repoOrder s =
    let '(w, err) := installHelm helmRepos (world s) in
    match err with
    | Some e =>
        mkRun (mkState w (cluster s)) [CallInstallHelm helmRepos (Some e)]
          (inl (Wrap e "failed to set up Helm as a prerequisite to installing the cluster utilities"))
    | None =>
        let setup := [CallInstallHelm helmRepos None;
                      LogInfo "Adding new Helm repos."] in
        let r1 := forEach (λ repo, wrapping "unable to add helm repos"
                                     (callHelmRepoAdd repo))
                    repoOrder (mkState w (cluster s)) in
        match outcome r1 with
        | inl e => mkRun (final r1) (setup ++ journal r1) (inl e)
        | inr _ =>
            let r2 := forEach upgradeUtility (utilities group) (final r1) in
            mkRun (final r2) (setup ++ journal r1 ++ journal r2) (outcome r2)
        end
    end.
Proof.
  unfold ProvisionUtilityGroup, mbind, M_bind, bind, wrapping,
    callInstallHelm, external, emit.
  destruct (installHelm helmRepos (world s)) as [w [e|]]; run_fields; [done|].
  destruct (forEach _ repoOrder _) as [s' j' [e|[]]]; run_fields; [done|].
  by destruct (forEach _ _ s').
Qed.

(** A method of the group is a Helm set-up (none when destroying) that
    leaves the cluster record alone, then, if that went well, the pass
    over the utilities. *)
Lemma runGroup_split pass (group : utilityGroup W)
    (repoOrder : list (string * string)) s :
  ∃ s1 j1,
    Forall helmEvent j1 ∧ cluster s1 = cluster s ∧
    repoAdds j1 `prefix_of` repoOrder ∧
    ((∃ e, runGroup pass group repoOrder s = mkRun s1 j1 (inl e)) ∨
     (∃ r, PassRun pass (utilities group) s1 r ∧
           runGroup pass group repoOrder s =
             mkRun (final r) (j1 ++ journal r) (outcome r) ∧
           (pass = Provisioning → repoAdds j1 = repoOrder))).
Proof.
  destruct pass; cbn [runGroup].
  - rewrite ProvisionUtilityGroup_steps.
    destruct (installHelm helmRepos (world s)) as [w [e|]].
    { exists (mkState w (cluster s)), [CallInstallHelm helmRepos (Some e)].
      split; [by repeat constructor|]. split; [done|].
      split; [apply prefix_nil|]. left. by eexists. }
    cbn zeta.
    destruct (helmRepoAdd_loop repoOrder (mkState w (cluster s)))
      as (Hc & Hj & Hp & Hok).
    destruct (forEach _ repoOrder _) as [s' j' [e|[]]];
      run_fields; cbn [final journal outcome cluster] in Hc, Hj, Hp, Hok.
    { exists s', ([CallInstallHelm helmRepos None;
                  LogInfo "Adding new Helm repos."] ++ j').
      split; [by repeat constructor|]. split; [done|]. split; [done|].
      left. by eexists. }
    exists s', ([CallInstallHelm helmRepos None;
                LogInfo "Adding new Helm repos."] ++ j').
    split; [by repeat constructor|]. split; [done|]. split; [done|].
    right. exists (forEach upgradeUtility (utilities group) s').
    split; [apply (forEach_PassRun Provisioning)|].
    split; [|intros _; by apply Hok].
    by rewrite <- !app_assoc.
  - exists s, []. split; [constructor|]. split; [done|].
    split; [apply prefix_nil|]. right.
    exists (forEach destroyUtility (utilities group) s).
    split; [apply (forEach_PassRun Destroying)|]. split; [|done].
    unfold DestroyUtilityGroup. by destruct (forEach _ _ _).
Qed.

(** The journal of a method, read through the split. *)
Lemma runGroup_journal pass (group : utilityGroup W)
    (repoOrder : list (string * string)) s :
  let r := runGroup pass group repoOrder s in
  (∃ e, outcome r = inl e ∧ passResults pass (journal r) = [] ∧
        cluster (final r) = cluster s) ∨
  (∃ s1 j1 r',
     PassRun pass (utilities group) s1 r' ∧ cluster s1 = cluster s ∧
     Forall helmEvent j1 ∧
     (pass = Provisioning → repoAdds j1 = repoOrder) ∧
     journal r = j1 ++ journal r' ∧
     final r = final r' ∧ outcome r = outcome r' ∧
     passResults pass (journal r) = passResults pass (journal r') ∧
     reported (journal r) = reported (journal r') ∧
     persisted (journal r) = persisted (journal r')).
Proof.
  destruct (runGroup_split pass group repoOrder s)
    as (s1 & j1 & Hhelm & Hc & _ & [[e Hr]|(r' & Hrun & Hr & Hadds)]);
    cbn zeta; rewrite Hr; run_fields;
    destruct (helmEvent_quiet pass j1 Hhelm) as (Hq1 & Hq2 & Hq3).
  - left. by exists e.
  - right. exists s1, j1, r'.
    rewrite passResults_app, reported_app, persisted_app, Hq1, Hq2, Hq3.
    by repeat split.
Qed.

Lemma runGroup_calls pass (group : utilityGroup W)
    (repoOrder : list (string * string)) s :
  let r := runGroup pass group repoOrder s in
  (passResults pass (journal r)).*1 `prefix_of` utilities group ∧
  (outcome r = inr tt →
   (passResults pass (journal r)).*1 = utilities group).
Proof.
  destruct (runGroup_journal pass group repoOrder s)
    as [(e & Ho & Hres & _)
       |(s1 & j1 & r' & Hrun & _ & _ & _ & _ & _ & Ho & Hres & _)];
    cbn zeta; rewrite Ho, Hres.
  - split; [apply prefix_nil | done].
  - by apply PassRun_calls in Hrun.
Qed.

(** *** Construction *)

(** The seven steps of [newUtilityGroupHandle], taken one after the
    other. *)
Lemma newUtilityGroupHandle_parts (c : Cluster) :
  (constructionFails c ∧
   ∃ e, newUtilityGroupHandle c = (None, Some e)) ∨
  (¬ constructionFails c ∧
   ∃ nginx prometheus fluentbit teleport,
     builtFrom c nginx prometheus fluentbit teleport ∧
     newUtilityGroupHandle c =
       (Some (mkUtilityGroup [nginx; prometheus; fluentbit; teleport]),
        None)).
Proof.
  unfold newUtilityGroupHandle, constructionFails, builtFrom.
  destruct (DesiredUtilityVersion lookupFault c NginxCanonicalName)
    as [e1|v1].
  { left. split; [left|]; by eexists. }
  destruct (newNginxHandle v1) as [e2|nginx] eqn:H2.
  { left. split; [right; left|]; by eauto. }
  destruct (newPrometheusHandle c) as [e3|prometheus].
  { left. split; [do 2 right; left|]; by eauto. }
  destruct (DesiredUtilityVersion lookupFault c FluentbitCanonicalName)
    as [e4|v4].
  { left. split; [do 3 right; left|]; by eauto. }
  destruct (newFluentbitHandle v4) as [e5|fluentbit] eqn:H5.
  { left. split; [do 4 right; left|]; by eauto. }
  destruct (DesiredUtilityVersion lookupFault c TeleportCanonicalName)
    as [e6|v6].
  { left. split; [do 5 right; left|]; by eauto. }
  destruct (newTeleportHandle c v6) as [e7|teleport] eqn:H7.
  { left. split; [do 6 right|]; by eauto. }
  right. split.
  - intros [[e [=]]|[(v & e & [= <-] & He)|[[e [=]]|[[e [=]]
            |[(v & e & [= <-] & He)|[[e [=]]|(v & e & [= <-] & He)]]]]]];
      congruence.
  - exists nginx, prometheus, fluentbit, teleport.
    repeat split; by eauto.
Qed.

(** C7. [newUtilityGroupHandle] gives all or nothing.  If a lookup of a
    desired version or the construction of one handle fails, it returns no
    group and an error; otherwise it returns, with no error, the group of
    the four handles.  A group with fewer utilities is never returned. *)
Theorem newUtilityGroupHandle_all_or_nothing :
  ∀ c : Cluster,
    (constructionFails c ∧
     ∃ e, newUtilityGroupHandle c = (None, Some e)) ∨
    (¬ constructionFails c ∧
     ∃ nginx prometheus fluentbit teleport,
       builtFrom c nginx prometheus fluentbit teleport ∧
       newUtilityGroupHandle c =
         (Some (mkUtilityGroup [nginx; prometheus; fluentbit; teleport]),
          None)).
Proof. exact newUtilityGroupHandle_parts. Qed.

(** C10. [CreateUtilityGroup] returns [nil] and does nothing: its journal
    is empty, so it calls neither [CreateOrUpgrade] nor [Destroy], and the
    cluster record and the world are the ones it was given. *)
Theorem CreateUtilityGroup_does_nothing :
  ∀ (group : utilityGroup W) s,
    outcome (CreateUtilityGroup group s) = inr tt ∧
    journal (CreateUtilityGroup group s) = [] ∧
    createCalls (journal (CreateUtilityGroup group s)) = [] ∧
    destroyCalls (journal (CreateUtilityGroup group s)) = [] ∧
    cluster (final (CreateUtilityGroup group s)) = cluster s ∧
    final (CreateUtilityGroup group s) = s.
Proof. intros group s. by repeat split. Qed.

(** *** Order *)

(** C1. In the group that [newUtilityGroupHandle] builds, the utilities
    stand in the order nginx, prometheus, fluentbit, teleport.  The
    [CreateOrUpgrade] calls of [ProvisionUtilityGroup] go through them in
    that order, from the first one on, and reach all four when the method
    returns [nil]; the [Destroy] calls of [DestroyUtilityGroup] go through
    them in the same forward order. *)
Theorem utilities_visited_in_construction_order :
  ∀ (c : Cluster) (group : utilityGroup W) (err : option error),
    newUtilityGroupHandle c = (Some group, err) →
    ∃ nginx prometheus fluentbit teleport,
      builtFrom c nginx prometheus fluentbit teleport ∧
      utilities group = [nginx; prometheus; fluentbit; teleport] ∧
      (∀ repoOrder s,
         let r := ProvisionUtilityGroup group repoOrder s in
         createCalls (journal r)
           `prefix_of` [nginx; prometheus; fluentbit; teleport] ∧
         (outcome r = inr tt →
          createCalls (journal r) = [nginx; prometheus; fluentbit; teleport])) ∧
      (∀ s,
         let r := DestroyUtilityGroup group s in
         destroyCalls (journal r)
           `prefix_of` [nginx; prometheus; fluentbit; teleport] ∧
         (outcome r = inr tt →
          destroyCalls (journal r) = [nginx; prometheus; fluentbit; teleport])).
Proof.
  intros c group err Hnew.
  destruct (newUtilityGroupHandle_parts c)
    as [(_ & e & He)|(_ & n & p & f & t & Hbuilt & Hok)]; [congruence|].
  rewrite Hok in Hnew. injection Hnew as <- <-.
  exists n, p, f, t. split; [done|]. split; [done|]. split.
  - intros repoOrder s.
    apply (runGroup_calls Provisioning (mkUtilityGroup [n; p; f; t])).
  - intros s.
    apply (runGroup_calls Destroying (mkUtilityGroup [n; p; f; t]) [] s).
Qed.

(** *** Failure in the middle *)

(** What a failed call at position [k] leaves, in terms of the utilities
    before it. *)
Lemma runGroup_failed_at pass (group : utilityGroup W)
    (repoOrder : list (string * string)) s k u e :
  let r := runGroup pass group repoOrder s in
  passResults pass (journal r) !! k = Some (u, Some e) →
  utilities group !! k = Some u ∧
  (passResults pass (journal r)).*1 = take (S k) (utilities group) ∧
  (reported (journal r)).*1 = take k (utilities group) ∧
  persisted (journal r) =
    (λ uv : Utility W * string, (Name uv.1, uv.2)) <$> reported (journal r) ∧
  outcome r = inl (Wrap e (passMessage pass)) ∧
  (∃ j', journal r = j' ++ [passEvent pass u (Some e)]) ∧
  ActualVersions (cluster (final r)) =
    replay (persisted (journal r)) (ActualVersions (cluster s)).
Proof.
  destruct (runGroup_journal pass group repoOrder s)
    as [(e' & _ & Hres & _)
       |(s1 & j1 & r' & Hrun & Hc & _ & _ & Hj & Hf & Ho & Hres & Hrep & Hper)];
    cbn zeta; rewrite Hres; [done|].
  intros Hk. rewrite Hrep, Hper, Ho, Hj, Hf.
  destruct (PassRun_failed_at _ _ _ _ _ _ _ Hrun Hk)
    as (Hu & Hcalls & Hr & Hp & Hout & j' & Hj').
  destruct (PassRun_cluster _ _ _ _ Hrun) as [Hav _].
  repeat split; try done.
  - exists (j1 ++ j'). by rewrite Hj', app_assoc.
  - by rewrite Hav, Hc.
Qed.

Lemma persisted_names j :
  persisted j = (λ uv : Utility W * string, (Name uv.1, uv.2)) <$> reported j →
  (persisted j).*1 = Name <$> (reported j).*1.
Proof.
  intros ->. rewrite <- !list_fmap_compose. by apply list_fmap_ext.
Qed.

(** C2. Let the utilities of a group have distinct names, and let the
    [CreateOrUpgrade] call at position [k] (counting from 0) of
    [ProvisionUtilityGroup] fail.  Then the calls made are those on the
    utilities at positions 0..k; each utility before [k] had the version it
    reported written under its name, and the cluster record holds it; the
    entries of the utilities from [k] on are as they were; and no later
    utility was called. *)
Theorem failed_upgrade_leaves_earlier_versions_recorded :
  ∀ (group : utilityGroup W) (repoOrder : list (string * string)) s k u e,
    NoDup (Name <$> utilities group) →
    createResults (journal (ProvisionUtilityGroup group repoOrder s)) !! k
      = Some (u, Some e) →
    let r := ProvisionUtilityGroup group repoOrder s in
    utilities group !! k = Some u ∧
    createCalls (journal r) = take (S k) (utilities group) ∧
    (∀ i p, i < k → utilities group !! i = Some p →
       ∃ v, reported (journal r) !! i = Some (p, v) ∧
            persisted (journal r) !! i = Some (Name p, v) ∧
            ActualVersions (cluster (final r)) !! Name p = Some v) ∧
    (∀ i q, k ≤ i → utilities group !! i = Some q →
       ActualVersions (cluster (final r)) !! Name q =
         ActualVersions (cluster s) !! Name q) ∧
    (∀ i q, k < i → utilities group !! i = Some q →
       q ∉ createCalls (journal r)).
Proof.
  intros group repoOrder s k u e Hnd Hk r.
  destruct (runGroup_failed_at Provisioning group repoOrder s k u e Hk)
    as (Hu & Hcalls & Hrep & Hper & _ & _ & Hav).
  cbn [runGroup passResults] in Hcalls, Hrep, Hper, Hav. fold r in Hcalls, Hrep, Hper, Hav.
  pose proof (persisted_names _ Hper) as Hnames. rewrite Hrep in Hnames.
  assert (Hlt : k < length (utilities group)) by by eapply lookup_lt_Some.
  split; [done|]. split; [done|]. split; [|split].
  - intros i p Hi Hp.
    assert (Hpi : (reported (journal r)).*1 !! i = Some p).
    { rewrite Hrep. by rewrite lookup_take_lt. }
    rewrite list_lookup_fmap in Hpi.
    destruct (reported (journal r) !! i) as [[p' v]|] eqn:Hri; [|done].
    injection Hpi as ->. exists v. split; [done|].
    assert (Hpe : persisted (journal r) !! i = Some (Name p, v)).
    { by rewrite Hper, list_lookup_fmap, Hri. }
    split; [done|]. rewrite Hav. apply replay_lookup_written.
    + rewrite Hnames, fmap_take.
      eapply sublist_NoDup; [exact Hnd | apply sublist_take].
    + by eapply list_elem_of_lookup_2.
  - intros i q Hi Hq. rewrite Hav. apply replay_lookup_other.
    rewrite Hnames. intros Hin.
    apply list_elem_of_fmap in Hin as (p & Hpq & Hin).
    apply elem_of_take in Hin as (i' & Hp & Hi').
    assert (i' = i); [|lia].
    eapply (NoDup_lookup _ _ _ _ Hnd); rewrite list_lookup_fmap.
    + by rewrite Hp.
    + rewrite Hq. cbn. by rewrite Hpq.
  - intros i q Hi Hq. unfold createCalls. rewrite Hcalls. intros Hin.
    apply elem_of_take in Hin as (i' & Hq' & Hi').
    assert (i' = i); [|lia].
    eapply (NoDup_lookup _ _ _ _ (NoDup_fmap_1 Name _ Hnd)); done.
Qed.

(** C6, as the code has it.  When a utility's [CreateOrUpgrade] (in
    [ProvisionUtilityGroup]) or [Destroy] (in [DestroyUtilityGroup]) fails
    with [e], the method returns [e] wrapped with one fixed message per
    method, the same for every utility; the failed call is the last event
    of the run, so the utilities after it are not visited; and the cluster
    record is the one at the start with every write made before the
    failure still in place. *)
Theorem failed_utility_aborts_without_undo :
  ∀ pass (group : utilityGroup W) (repoOrder : list (string * string)) s u e,
    passEvent pass u (Some e) ∈ journal (runGroup pass group repoOrder s) →
    let r := runGroup pass group repoOrder s in
    outcome r =
      inl (Wrap e (match pass with
                   | Provisioning =>
                       "failed to upgrade one of the cluster utilities"
                   | Destroying =>
                       "failed to destroy one of the cluster utilities"
                   end)) ∧
    (∃ j', journal r = j' ++ [passEvent pass u (Some e)]) ∧
    (∃ pre post,
       utilities group = pre ++ u :: post ∧
       (passResults pass (journal r)).*1 = pre ++ [u] ∧
       (persisted (journal r)).*1 = Name <$> pre) ∧
    ActualVersions (cluster (final r)) =
      replay (persisted (journal r)) (ActualVersions (cluster s)).
Proof.
  intros pass group repoOrder s u e Hin r.
  assert (∃ k, passResults pass (journal r) !! k = Some (u, Some e))
    as [k Hk].
  { apply list_elem_of_lookup.
    destruct pass; apply list_elem_of_omap; eexists; (split; [exact Hin|done]). }
  destruct (runGroup_failed_at pass group repoOrder s k u e Hk)
    as (Hu & Hcalls & Hrep & Hper & Hout & Hlast & Hav).
  fold r in Hcalls, Hrep, Hper, Hout, Hlast, Hav.
  split; [by destruct pass|]. split; [done|]. split; [|done].
  exists (take k (utilities group)), (drop (S k) (utilities group)).
  split; [by rewrite take_drop_middle|].
  split; [by rewrite Hcalls; apply take_S_r|].
  by rewrite (persisted_names _ Hper), Hrep.
Qed.

(** *** Provisioning that goes through *)

(** A provisioning that returns [nil]: the Helm set-up with one
    registration per entry of [repoOrder], then the pass over all the
    utilities. *)
Lemma Provision_success (group : utilityGroup W)
    (repoOrder : list (string * string)) s :
  let r := ProvisionUtilityGroup group repoOrder s in
  outcome r = inr tt →
  ∃ j1 j2,
    journal r = j1 ++ j2 ∧
    Forall helmEvent j1 ∧ repoAdds j1 = repoOrder ∧ repoAdds j2 = [] ∧
    createCalls j2 = utilities group ∧
    persisted (journal r) = persisted j2 ∧
    Forall2 (λ u (nv : string * string),
               nv.1 = Name u ∧
               ∃ w w', CreateOrUpgrade u w = (w', None) ∧
                       nv.2 = ActualVersion u w')
      (utilities group) (persisted j2) ∧
    ActualVersions (cluster (final r)) =
      replay (persisted j2) (ActualVersions (cluster s)).
Proof.
  destruct (runGroup_journal Provisioning group repoOrder s)
    as [(e & Ho & _)
       |(s1 & j1 & r' & Hrun & Hc & Hhelm & Hadds & Hj & Hf & Ho & _ & _ & Hper)];
    cbn [runGroup] in *; cbn zeta; rewrite Ho; [done|].
  intros Hok. exists j1, (journal r').
  destruct (PassRun_cluster _ _ _ _ Hrun) as [Hav _].
  destruct (PassRun_calls _ _ _ _ Hrun) as [_ Hcalls].
  rewrite Hf, Hav, Hc. repeat split; try done.
  - by apply Hadds.
  - by eapply PassRun_repoAdds.
  - by apply Hcalls.
  - by apply (PassRun_success Provisioning _ _ _ Hrun).
Qed.

Lemma steady_same_writes us (l1 l2 : list (string * string)) :
  steady us →
  Forall2 (λ u (nv : string * string),
             nv.1 = Name u ∧
             ∃ w w', CreateOrUpgrade u w = (w', None) ∧
                     nv.2 = ActualVersion u w') us l1 →
  Forall2 (λ u (nv : string * string),
             nv.1 = Name u ∧
             ∃ w w', CreateOrUpgrade u w = (w', None) ∧
                     nv.2 = ActualVersion u w') us l2 →
  l1 = l2.
Proof.
  intros Hsteady H1. revert l2.
  induction H1 as [|u [n1 v1] us l1 (Hn1 & w1 & w1' & Hc1 & Hv1) _ IH];
    intros l2 H2.
  - by apply Forall2_nil_inv_l in H2.
  - apply Forall2_cons_inv_l in H2
      as ([n2 v2] & l2' & (Hn2 & w2 & w2' & Hc2 & Hv2) & H2 & ->).
    cbn in *. subst n1 n2 v1 v2. f_equal.
    + f_equal. eapply Hsteady; [apply list_elem_of_here| |]; done.
    + apply IH; [|done]. intros u' Hu'. apply Hsteady. by apply list_elem_of_further.
Qed.

Lemma reconciling_writes us (l : list (string * string)) :
  reconciling us →
  Forall2 (λ u (nv : string * string),
             nv.1 = Name u ∧
             ∃ w w', CreateOrUpgrade u w = (w', None) ∧
                     nv.2 = ActualVersion u w') us l →
  l = (λ u, (Name u, DesiredVersion u)) <$> us.
Proof.
  intros Hrec H.
  induction H as [|u [n v] us l (Hn & w & w' & Hc & Hv) _ IH]; [done|].
  cbn in *. subst n v. f_equal.
  - f_equal. eapply Hrec; [apply list_elem_of_here|done].
  - apply IH. intros u' Hu'. apply Hrec. by apply list_elem_of_further.
Qed.

(** C4. Run [ProvisionUtilityGroup] twice in a row, the second time on the
    state the first one left, with utilities that report the same version
    each time their [CreateOrUpgrade] succeeds (nothing changed outside),
    both runs returning [nil].  The actual versions on the cluster record
    after the second run are those after the first. *)
Theorem provision_twice_same_actual_versions :
  ∀ (group : utilityGroup W) (repoOrder1 repoOrder2 : list (string * string)) s,
    steady (utilities group) →
    let r1 := ProvisionUtilityGroup group repoOrder1 s in
    let r2 := ProvisionUtilityGroup group repoOrder2 (final r1) in
    outcome r1 = inr tt →
    outcome r2 = inr tt →
    ActualVersions (cluster (final r2)) = ActualVersions (cluster (final r1)).
Proof.
  intros group repoOrder1 repoOrder2 s Hsteady r1 r2 Hok1 Hok2.
  destruct (Provision_success group repoOrder1 s Hok1)
    as (_ & j1 & _ & _ & _ & _ & _ & _ & Hw1 & Hav1).
  destruct (Provision_success group repoOrder2 (final r1) Hok2)
    as (_ & j2 & _ & _ & _ & _ & _ & _ & Hw2 & Hav2).
  fold r1 in Hav1, Hav2. fold r2 in Hav2.
  rewrite Hav2, Hav1, (steady_same_writes _ _ _ Hsteady Hw2 Hw1).
  apply replay_twice.
Qed.

(** The three chart repositories. *)
Lemma rangeOrder_length (repoOrder : list (string * string)) :
  rangeOrder repoOrder → length repoOrder = 3.
Proof.
  unfold rangeOrder. intros ->. by vm_compute.
Qed.

(** C5, as the code has it.  A cluster with desired versions
    ingress: "v2" and metrics: "v5" and no actual version; a group of the
    two utilities of these names, built with the cluster's desired
    versions, each of which is at its desired version when its
    [CreateOrUpgrade] succeeds.  A [ProvisionUtilityGroup] that returns
    [nil] writes ingress: "v2" then metrics: "v5", which are then the actual
    versions; and it attempts three chart-repository registrations, one per
    entry of [helmRepos], all of them before the first [CreateOrUpgrade]. *)
Theorem provision_scenario_three_registrations :
  ∀ (group : utilityGroup W) (repoOrder : list (string * string)) s
    (ingress metrics : Utility W),
    utilities group = [ingress; metrics] →
    Name ingress = "ingress" → Name metrics = "metrics" →
    DesiredVersions (cluster s) = {[ "ingress" := "v2"; "metrics" := "v5" ]} →
    ActualVersions (cluster s) = ∅ →
    (∀ u, u ∈ utilities group →
       DesiredVersions (cluster s) !! Name u = Some (DesiredVersion u)) →
    reconciling (utilities group) →
    rangeOrder repoOrder →
    let r := ProvisionUtilityGroup group repoOrder s in
    outcome r = inr tt →
    ActualVersions (cluster (final r))
      = {[ "ingress" := "v2"; "metrics" := "v5" ]} ∧
    persisted (journal r) = [("ingress", "v2"); ("metrics", "v5")] ∧
    length (repoAdds (journal r)) = 3 ∧
    repoAdds (journal r) ≡ₚ map_to_list helmRepos ∧
    ∃ j1 j2,
      journal r = j1 ++ j2 ∧
      repoAdds j1 = repoAdds (journal r) ∧ createCalls j1 = [] ∧
      repoAdds j2 = [] ∧ createCalls j2 = [ingress; metrics].
Proof.
  intros group repoOrder s ingress metrics Hus Hn1 Hn2 Hdes Hact Hbuilt Hrec
    Hrange r Hok.
  destruct (Provision_success group repoOrder s Hok)
    as (j1 & j2 & Hj & Hhelm & Hadds1 & Hadds2 & Hcalls & Hper & Hw & Hav).
  fold r in Hj, Hper, Hav.
  apply (reconciling_writes _ _ Hrec) in Hw.
  assert (Hv1 : DesiredVersion ingress = "v2").
  { specialize (Hbuilt ingress). rewrite Hus, Hn1, Hdes in Hbuilt.
    specialize (Hbuilt (list_elem_of_here _ _)).
    vm_compute in Hbuilt. injection Hbuilt as Heq. symmetry. exact Heq. }
  assert (Hv2 : DesiredVersion metrics = "v5").
  { specialize (Hbuilt metrics). rewrite Hus, Hn2, Hdes in Hbuilt.
    specialize (Hbuilt (list_elem_of_further _ _ _ (list_elem_of_here _ _))).
    vm_compute in Hbuilt. injection Hbuilt as Heq. symmetry. exact Heq. }
  rewrite Hus in Hw. cbn in Hw. rewrite Hn1, Hn2, Hv1, Hv2 in Hw.
  assert (Hadds : repoAdds (journal r) = repoOrder).
  { by rewrite Hj, repoAdds_app, Hadds1, Hadds2, app_nil_r. }
  destruct (helmEvent_quiet Provisioning j1 Hhelm) as (Hq & _ & _).
  split; [|split; [|split; [|split]]].
  - rewrite Hav, Hw, Hact. cbn. apply map_eq; intros k.
    destruct (decide (k = "ingress")) as [->|?];
      [|destruct (decide (k = "metrics")) as [->|?]]; by simplify_map_eq.
  - by rewrite Hper, Hw.
  - rewrite Hadds. by apply rangeOrder_length.
  - by rewrite Hadds.
  - exists j1, j2. rewrite Hadds, Hcalls, Hus. repeat split; try done.
    unfold createCalls. cbn [passResults] in Hq. by rewrite Hq.
Qed.

End Facts.

(** *** The properties at work on the small cluster *)

Import scenario.

Lemma charts_reconciling (us : list (Utility World)) :
  (∀ u, u ∈ us → ∃ name desired, u = chart name desired) →
  reconciling us.
Proof.
  intros Hcharts u Hu w w' Hcall.
  destruct (Hcharts u Hu) as (name & desired & ->).
  unfold chart in *. cbn [CreateOrUpgrade ActualVersion DesiredVersion] in *.
  injection Hcall as <-. by rewrite lookup_insert_eq.
Qed.

Lemma charts_steady (us : list (Utility World)) :
  (∀ u, u ∈ us → ∃ name desired, u = chart name desired) →
  steady us.
Proof.
  intros Hcharts u Hu w1 w1' w2 w2' Hcall1 Hcall2.
  destruct (Hcharts u Hu) as (name & desired & ->).
  unfold chart in *. cbn [CreateOrUpgrade ActualVersion] in *.
  injection Hcall1 as <-. injection Hcall2 as <-.
  by rewrite !lookup_insert_eq.
Qed.

Lemma groupC_charts :
  ∀ u, u ∈ utilities groupC → ∃ name desired, u = chart name desired.
Proof.
  intros u Hu. cbn in Hu.
  apply elem_of_cons in Hu as [->|Hu]; [by eexists _, _|].
  apply elem_of_cons in Hu as [->|Hu]; [by eexists _, _|].
  by apply elem_of_nil in Hu.
Qed.

Lemma someOrder_rangeOrder : rangeOrder someOrder.
Proof.
  unfold rangeOrder.
  replace (map_to_list helmRepos) with
    [ ("stable", "https://kubernetes-charts.storage.googleapis.com");
      ("chartmuseum", "https://chartmuseum.internal.core.cloud.mattermost.com");
      ("ingress-nginx", "https://kubernetes.github.io/ingress-nginx") ]
    by by vm_compute.
  unfold someOrder.
  etrans; [apply Permutation_swap|]. apply perm_skip, Permutation_swap.
Qed.

(** C1 on [clusterD]: the group is built, and a provisioning that goes
    through calls nginx, prometheus, fluentbit and teleport in that
    order. *)
Lemma utilities_visited_in_construction_order_witness :
  newUtilityGroupHandle clusterD = (Some groupD, None) ∧
  Name <$> createCalls (journal (ProvisionUtilityGroup groupD someOrder startD))
    = ["nginx"; "prometheus"; "fluentbit"; "teleport"] ∧
  Name <$> destroyCalls (journal (DestroyUtilityGroup groupD startD))
    = ["nginx"; "prometheus"; "fluentbit"; "teleport"].
Proof.
  assert (Hnew : newUtilityGroupHandle clusterD = (Some groupD, None))
    by reflexivity.
  split; [exact Hnew|].
  destruct (utilities_visited_in_construction_order clusterD groupD None Hnew)
    as (n & p & f & t & _ & Hus & Hprov & Hdest).
  destruct (Hprov someOrder startD) as [_ Hp].
  destruct (Hdest startD) as [_ Hd].
  rewrite Hp, Hd, <- Hus by reflexivity. split; reflexivity.
Defined.

(** C2 on [groupF]: prometheus, at position 1, fails; nginx is recorded,
    and fluentbit and teleport are not called. *)
Lemma failed_upgrade_leaves_earlier_versions_recorded_witness :
  NoDup (Name <$> utilities groupF) ∧
  createResults (journal (ProvisionUtilityGroup groupF someOrder startD)) !! 1
    = Some (broken "prometheus" "10.4.0" "helm timed out",
            Some (New "helm timed out")) ∧
  createCalls (journal (ProvisionUtilityGroup groupF someOrder startD))
    = take 2 (utilities groupF) ∧
  ActualVersions (cluster (final (ProvisionUtilityGroup groupF someOrder startD)))
    !! "teleport" = None.
Proof.
  assert (Hnd : NoDup (Name <$> utilities groupF)).
  { apply (bool_decide_unpack _). vm_compute. exact I. }
  assert (Hfail :
    createResults (journal (ProvisionUtilityGroup groupF someOrder startD)) !! 1
      = Some (broken "prometheus" "10.4.0" "helm timed out",
              Some (New "helm timed out"))) by reflexivity.
  split; [exact Hnd|]. split; [exact Hfail|].
  destruct (failed_upgrade_leaves_earlier_versions_recorded
              groupF someOrder startD 1
              (broken "prometheus" "10.4.0" "helm timed out")
              (New "helm timed out") Hnd Hfail)
    as (_ & Hcalls & _ & Hkept & _).
  split; [exact Hcalls|].
  assert (Hlast : utilities groupF !! 3 = Some (chart "teleport" "0.3.0"))
    by reflexivity.
  exact (Hkept 3 (chart "teleport" "0.3.0") ltac:(lia) Hlast).
Defined.

(** C4 on [groupC]: a second provisioning changes no actual version. *)
Lemma provision_twice_same_actual_versions_witness :
  steady (utilities groupC) ∧
  outcome (ProvisionUtilityGroup groupC someOrder startC) = inr tt ∧
  outcome (ProvisionUtilityGroup groupC someOrder
             (final (ProvisionUtilityGroup groupC someOrder startC))) = inr tt ∧
  ActualVersions
    (cluster (final (ProvisionUtilityGroup groupC someOrder
                       (final (ProvisionUtilityGroup groupC someOrder startC)))))
  = ActualVersions
      (cluster (final (ProvisionUtilityGroup groupC someOrder startC))).
Proof.
  split; [exact (charts_steady _ groupC_charts)|].
  split; [reflexivity|]. split; [reflexivity|].
  apply (provision_twice_same_actual_versions groupC someOrder someOrder startC
           (charts_steady _ groupC_charts)); reflexivity.
Defined.

(** C5 on cluster C. *)
Lemma provision_scenario_three_registrations_witness :
  rangeOrder someOrder ∧
  reconciling (utilities groupC) ∧
  outcome (ProvisionUtilityGroup groupC someOrder startC) = inr tt ∧
  ActualVersions (cluster (final (ProvisionUtilityGroup groupC someOrder startC)))
    = {[ "ingress" := "v2"; "metrics" := "v5" ]} ∧
  length (repoAdds (journal (ProvisionUtilityGroup groupC someOrder startC))) = 3.
Proof.
  split; [exact someOrder_rangeOrder|].
  split; [exact (charts_reconciling _ groupC_charts)|].
  split; [reflexivity|].
  assert (Hbuilt : ∀ u, u ∈ utilities groupC →
            DesiredVersions (cluster startC) !! Name u = Some (DesiredVersion u)).
  { intros u Hu. cbn in Hu.
    apply elem_of_cons in Hu as [->|Hu]; [reflexivity|].
    apply elem_of_cons in Hu as [->|Hu]; [reflexivity|].
    by apply elem_of_nil in Hu. }
  assert (Hok : outcome (ProvisionUtilityGroup groupC someOrder startC) = inr tt)
    by reflexivity.
  destruct (provision_scenario_three_registrations groupC someOrder startC
              ingress metrics eq_refl eq_refl eq_refl eq_refl eq_refl Hbuilt
              (charts_reconciling _ groupC_charts) someOrder_rangeOrder Hok)
    as (Hav & _ & Hlen & _).
  split; [exact Hav | exact Hlen].
Defined.

(** C5 as the spec has it fails on cluster C: the provisioning goes
    through and gives the two actual versions, but the registrations are
    not two. *)
Lemma provision_scenario_not_two_registrations :
  ¬ (outcome (ProvisionUtilityGroup groupC someOrder startC) = inr tt →
     ActualVersions
       (cluster (final (ProvisionUtilityGroup groupC someOrder startC)))
       = {[ "ingress" := "v2"; "metrics" := "v5" ]} ∧
     persisted (journal (ProvisionUtilityGroup groupC someOrder startC))
       = [("ingress", "v2"); ("metrics", "v5")] ∧
     length (repoAdds (journal (ProvisionUtilityGroup groupC someOrder startC)))
       = 2).
Proof.
  intros Hclaim.
  assert (Hok : outcome (ProvisionUtilityGroup groupC someOrder startC) = inr tt)
    by reflexivity.
  destruct (Hclaim Hok) as (_ & _ & Hlen).
  vm_compute in Hlen. discriminate Hlen.
Qed.

(** C6 on [groupF], for provisioning. *)
Lemma failed_utility_aborts_without_undo_witness :
  CallCreateOrUpgrade (broken "prometheus" "10.4.0" "helm timed out")
      (Some (New "helm timed out"))
    ∈ journal (ProvisionUtilityGroup groupF someOrder startD) ∧
  outcome (ProvisionUtilityGroup groupF someOrder startD)
    = inl (Wrap (New "helm timed out")
             "failed to upgrade one of the cluster utilities").
Proof.
  assert (Hin : passEvent Provisioning
                  (broken "prometheus" "10.4.0" "helm timed out")
                  (Some (New "helm timed out"))
                ∈ journal (runGroup Provisioning groupF someOrder startD)).
  { apply (list_elem_of_lookup_2 _ 8). reflexivity. }
  split; [exact Hin|].
  by destruct (failed_utility_aborts_without_undo Provisioning groupF someOrder
                 startD _ _ Hin) as (Hout & _).
Defined.

(** C6 as the spec has it fails on [groupF]: the call on prometheus fails,
    and the text of the error returned does not mention prometheus. *)
Lemma wrapped_error_does_not_name_the_utility :
  ¬ (∀ u e,
       CallCreateOrUpgrade u (Some e)
         ∈ journal (ProvisionUtilityGroup groupF someOrder startD) →
       ∃ err, outcome (ProvisionUtilityGroup groupF someOrder startD) = inl err ∧
              contains (Name u) (Error err) = true).
Proof.
  intros Hclaim.
  destruct (Hclaim (broken "prometheus" "10.4.0" "helm timed out")
              (New "helm timed out"))
    as (err & Hout & Hnames).
  { apply (list_elem_of_lookup_2 _ 8). reflexivity. }
  vm_compute in Hout. injection Hout as <-.
  vm_compute in Hnames. discriminate Hnames.
Qed.

End group_facts.

(** * Further properties *)

(** ** The MySQL operator database *)

Module database_more.

Import errors model.

(** X1. A database is internal exactly when it is supported and is none of
    the four RDS databases: of the identifiers that [IsSupportedDatabase]
    accepts, [InternalDatabase] keeps the MySQL operator alone. *)
Theorem InternalDatabase_is_the_supported_non_RDS :
  ∀ database : string,
    InternalDatabase database = true ↔
      IsSupportedDatabase database = true ∧
      database ≠ InstallationDatabaseSingleTenantRDSMySQL ∧
      database ≠ InstallationDatabaseSingleTenantRDSPostgres ∧
      database ≠ InstallationDatabaseMultiTenantRDSMySQL ∧
      database ≠ InstallationDatabaseMultiTenantRDSPostgres.
Proof.
  intros database. unfold InternalDatabase, IsSupportedDatabase.
  destruct (String.eqb_spec database InstallationDatabaseMysqlOperator)
    as [->|Hop].
  - split; [intros _|done]. by repeat split.
  - split; [done|]. intros (Hsup & H1 & H2 & H3 & H4).
    repeat match type of Hsup with
           | context [String.eqb database ?c] =>
               destruct (String.eqb_spec database c); [done|]
           end.
    done.
Qed.

(** X2. The three methods that write to the log only add to it: the
    entries already there stay in front, and one or two are added.  An
    error line is written by [Snapshot] alone and a warning by [Teardown]
    with [keepData] alone; [Provision] and [Teardown] return [nil], and
    [GenerateDatabaseSpecAndSecret] returns no spec, no secret and no
    error. *)
Theorem MysqlOperatorDatabase_log_discipline :
  ∀ (Store Spec Secret : Type) (store : Store) (keepData : bool)
    (logger : log.FieldLogger),
    (∃ added, (Provision store logger).1 = logger ++ added ∧
              length added = 1 ∧
              Forall (λ e, log.level e = log.InfoLevel) added) ∧
    (∃ added, (Snapshot store logger).1 = logger ++ added ∧
              length added = 1 ∧
              Forall (λ e, log.level e = log.ErrorLevel) added) ∧
    (∃ added, (Teardown store keepData logger).1 = logger ++ added ∧
              length added = (if keepData then 2 else 1) ∧
              Forall (λ e, log.level e ≠ log.ErrorLevel) added ∧
              (Exists (λ e, log.level e = log.WarnLevel) added ↔
               keepData = true)) ∧
    (Provision store logger).2 = None ∧
    (Teardown store keepData logger).2 = None ∧
    GenerateDatabaseSpecAndSecret (Spec := Spec) (Secret := Secret)
      store logger = (None, None, None).
Proof.
  intros Store Spec Secret store keepData logger.
  unfold Provision, Snapshot, Teardown, log.Info, log.Warn, log.Error.
  split; [|split; [|split]].
  - eexists. split; [reflexivity|]. split; [done|]. by repeat constructor.
  - eexists. split; [reflexivity|]. split; [done|]. by repeat constructor.
  - destruct keepData; cbn [fst].
    + eexists. split; [by rewrite <- app_assoc|]. split; [done|].
      split; [by repeat constructor|]. split; [done|].
      intros _. apply Exists_cons_tl, Exists_cons_hd. done.
    + eexists. split; [reflexivity|]. split; [done|].
      split; [by repeat constructor|]. split; [|done].
      intros Hex. apply Exists_cons in Hex as [Hex|Hex]; [done|].
      by apply Exists_nil in Hex.
  - done.
Qed.

End database_more.

(** ** The utility group, further *)

Module group_more.

Import errors model provisioner group_facts.

Section More.

Context {W : Type} `{!Collaborators W}.

Implicit Types (u : Utility W) (s : State W) (j : list (Event W)).
Implicit Types (us : list (Utility W)) (pass : Pass).

Ltac run_fields := cbn [final journal outcome cluster world].
Ltac run_fields_in H := cbn [final journal outcome cluster world] in H.

(** *** More on a pass *)

Lemma settled_not_helm pass u v err :
  Forall (λ ev, ¬ helmEvent ev) (settled pass u v err).
Proof. destruct pass; repeat constructor; by intros []. Qed.

Lemma PassRun_not_helm pass us s r :
  PassRun pass us s r → Forall (λ ev, ¬ helmEvent ev) (journal r).
Proof.
  induction 1 as [s|u rest s w e Hcall|u rest s w e Hcall Hwrite
                 |u rest s w r Hcall Hwrite Hrun IH]; run_fields.
  - constructor.
  - destruct pass; repeat constructor; by intros [].
  - apply settled_not_helm.
  - apply Forall_app. split; [apply settled_not_helm | exact IH].
Qed.

Lemma not_helm_quiet j :
  Forall (λ ev, ¬ helmEvent ev) j →
  repoAdds j = [] ∧ installResults j = [].
Proof.
  induction 1 as [|ev j Hev _ [IH1 IH2]]; [done|].
  destruct ev; cbn in Hev |- *; try done; by exfalso; apply Hev.
Qed.

Lemma PassRun_other pass us s r :
  PassRun pass us s r → passResults (otherPass pass) (journal r) = [].
Proof.
  induction 1 as [s|u rest s w e Hcall|u rest s w e Hcall Hwrite
                 |u rest s w r Hcall Hwrite Hrun IH]; run_fields.
  - by destruct pass.
  - by destruct pass.
  - by destruct pass.
  - rewrite passResults_app, IH. by destruct pass.
Qed.

Lemma PassRun_persisted_prefix pass us s r :
  PassRun pass us s r →
  (persisted (journal r)).*1 `prefix_of` Name <$> us.
Proof.
  induction 1 as [s|u rest s w e Hcall|u rest s w e Hcall Hwrite
                 |u rest s w r Hcall Hwrite Hrun IH]; run_fields.
  - done.
  - replace (persisted [passEvent pass u (Some e)]) with (@nil (string * string))
      by by destruct pass.
    apply prefix_nil.
  - rewrite persisted_unsettled. apply prefix_nil.
  - rewrite persisted_app, persisted_settled. cbn. by apply prefix_cons.
Qed.

Lemma PassRun_success_reported pass us s r :
  PassRun pass us s r → outcome r = inr tt →
  (reported (journal r)).*1 = us ∧
  persisted (journal r) =
    (λ uv : Utility W * string, (Name uv.1, uv.2)) <$> reported (journal r).
Proof.
  induction 1 as [s|u rest s w e Hcall|u rest s w e Hcall Hwrite
                 |u rest s w r Hcall Hwrite Hrun IH]; run_fields;
    intros Hok; try done.
  destruct (IH Hok) as [IH1 IH2].
  rewrite reported_app, reported_settled, persisted_app, persisted_settled.
  cbn. by rewrite IH1, IH2.
Qed.

(** The journal of a pass is made of the blocks of the utilities that went
    through, then of the events of its ending. *)
Lemma PassRun_shape pass us s r :
  PassRun pass us s r →
  ∃ done x,
    journal r = blocks pass done ++ endingEvents pass x ∧
    outcome r = endingOutcome pass x ∧
    (∃ rest, us = done.*1 ++ endingAt x ++ rest ∧ (x = Completed → rest = [])) ∧
    ActualVersions (cluster (final r)) =
      replay ((λ uv : Utility W * string, (Name uv.1, uv.2)) <$> done)
        (ActualVersions (cluster s)).
Proof.
  induction 1 as [s|u rest s w e Hcall|u rest s w e Hcall Hwrite
                 |u rest s w r Hcall Hwrite Hrun
                    (done & x & Hj & Ho & (rest' & Hus & Hrest) & Hav)];
    run_fields.
  - exists [], Completed. repeat split; try done. by exists [].
  - exists [], (CallFailed u e). repeat split; try done. by exists rest.
  - exists [], (WriteFailed u (ActualVersion u w) e).
    repeat split; try done. by exists rest.
  - exists ((u, ActualVersion u w) :: done), x.
    split; [|split; [done|split]].
    + by rewrite Hj.
    + exists rest'. split; [by cbn; rewrite Hus|done].
    + by rewrite Hav.
Qed.

(** A write that fails is the last event of a pass. *)
Lemma PassRun_write_failed pass us s r n v e :
  PassRun pass us s r →
  CallSetUtilityActualVersion n v (Some e) ∈ journal r →
  outcome r = inl e ∧
  (∃ j', journal r = j' ++ [CallSetUtilityActualVersion n v (Some e)]) ∧
  ∃ pre u post,
    us = pre ++ u :: post ∧ n = Name u ∧
    passResults pass (journal r) = (λ p, (p, None)) <$> (pre ++ [u]) ∧
    (reported (journal r)).*1 = pre ++ [u] ∧
    (persisted (journal r)).*1 = Name <$> pre.
Proof.
  induction 1 as [s|u rest s w e' Hcall|u rest s w e' Hcall Hwrite
                 |u rest s w r Hcall Hwrite Hrun IH]; run_fields; intros Hin.
  - by apply elem_of_nil in Hin.
  - apply list_elem_of_singleton in Hin. by destruct pass.
  - unfold settled in Hin. rewrite !elem_of_cons, elem_of_nil in Hin.
    destruct Hin as [Hin|[Hin|[Hin|[]]]]; [by destruct pass|done|].
    injection Hin as -> -> ->. split; [done|]. split.
    + by exists [passEvent pass u None;
                 CallActualVersion u (ActualVersion u w)].
    + exists [], u, rest. rewrite passResults_settled, reported_settled,
        persisted_unsettled. by repeat split.
  - apply elem_of_app in Hin as [Hin|Hin].
    { unfold settled in Hin. rewrite !elem_of_cons, elem_of_nil in Hin.
      destruct Hin as [Hin|[Hin|[Hin|[]]]]; [by destruct pass|done|done]. }
    destruct (IH Hin)
      as (Ho & (j' & Hj) & pre & u' & post & Hus & Hn & Hres & Hrep & Hper).
    split; [done|]. split.
    + exists (settled pass u (ActualVersion u w) None ++ j').
      by rewrite Hj, app_assoc.
    + exists (u :: pre), u', post.
      rewrite passResults_app, passResults_settled, reported_app,
        reported_settled, persisted_app, persisted_settled.
      cbn [app fmap list_fmap fst]. rewrite Hres, Hrep, Hper, Hus.
      by repeat split.
Qed.

(** *** A call that fails, in either method *)

Lemma failed_call_at_position pass (group : utilityGroup W)
    (repoOrder : list (string * string)) s k u e :
  NoDup (Name <$> utilities group) →
  passResults pass (journal (runGroup pass group repoOrder s)) !! k
    = Some (u, Some e) →
  let r := runGroup pass group repoOrder s in
  utilities group !! k = Some u ∧
  (passResults pass (journal r)).*1 = take (S k) (utilities group) ∧
  (∀ i p, i < k → utilities group !! i = Some p →
     ∃ v, reported (journal r) !! i = Some (p, v) ∧
          persisted (journal r) !! i = Some (Name p, v) ∧
          ActualVersions (cluster (final r)) !! Name p = Some v) ∧
  (∀ i q, k ≤ i → utilities group !! i = Some q →
     ActualVersions (cluster (final r)) !! Name q =
       ActualVersions (cluster s) !! Name q) ∧
  (∀ i q, k < i → utilities group !! i = Some q →
     q ∉ (passResults pass (journal r)).*1) ∧
  outcome r = inl (Wrap e (passMessage pass)).
Proof.
  intros Hnd Hk r.
  destruct (runGroup_failed_at pass group repoOrder s k u e Hk)
    as (Hu & Hcalls & Hrep & Hper & Hout & _ & Hav).
  fold r in Hcalls, Hrep, Hper, Hav, Hout.
  pose proof (persisted_names _ Hper) as Hnames. rewrite Hrep in Hnames.
  split; [done|]. split; [done|]. split; [|split; [|split; [|done]]].
  - intros i p Hi Hp.
    assert (Hpi : (reported (journal r)).*1 !! i = Some p).
    { rewrite Hrep. by rewrite lookup_take_lt. }
    rewrite list_lookup_fmap in Hpi.
    destruct (reported (journal r) !! i) as [[p' v]|] eqn:Hri; [|done].
    injection Hpi as ->. exists v. split; [done|].
    assert (Hpe : persisted (journal r) !! i = Some (Name p, v)).
    { by rewrite Hper, list_lookup_fmap, Hri. }
    split; [done|]. rewrite Hav. apply replay_lookup_written.
    + rewrite Hnames, fmap_take.
      eapply sublist_NoDup; [exact Hnd | apply sublist_take].
    + by eapply list_elem_of_lookup_2.
  - intros i q Hi Hq. rewrite Hav. apply replay_lookup_other.
    rewrite Hnames. intros Hin.
    apply list_elem_of_fmap in Hin as (p & Hpq & Hin).
    apply elem_of_take in Hin as (i' & Hp & Hi').
    assert (i' = i); [|lia].
    eapply (NoDup_lookup _ _ _ _ Hnd); rewrite list_lookup_fmap.
    + by rewrite Hp.
    + rewrite Hq. cbn. by rewrite Hpq.
  - intros i q Hi Hq. rewrite Hcalls. intros Hin.
    apply elem_of_take in Hin as (i' & Hq' & Hi').
    assert (i' = i); [|lia].
    eapply (NoDup_lookup _ _ _ _ (NoDup_fmap_1 Name _ Hnd)); done.
Qed.

(** X3. Let the utilities of a group have distinct names, and let the
    [Destroy] call at position [k] (from 0) of [DestroyUtilityGroup] fail
    with [e].  The method returns [e] wrapped with "failed to destroy one
    of the cluster utilities"; the utilities destroyed or tried are those
    at positions 0..k; each utility before [k] has the version it reported
    after its [Destroy] on the cluster record; the entries of the utilities
    from [k] on are as they were; and no later utility is destroyed. *)
Theorem failed_destroy_leaves_later_utilities_alone :
  ∀ (group : utilityGroup W) s k u e,
    NoDup (Name <$> utilities group) →
    destroyResults (journal (DestroyUtilityGroup group s)) !! k
      = Some (u, Some e) →
    let r := DestroyUtilityGroup group s in
    outcome r =
      inl (Wrap e "failed to destroy one of the cluster utilities") ∧
    utilities group !! k = Some u ∧
    destroyCalls (journal r) = take (S k) (utilities group) ∧
    (∀ i p, i < k → utilities group !! i = Some p →
       ∃ v, reported (journal r) !! i = Some (p, v) ∧
            persisted (journal r) !! i = Some (Name p, v) ∧
            ActualVersions (cluster (final r)) !! Name p = Some v) ∧
    (∀ i q, k ≤ i → utilities group !! i = Some q →
       ActualVersions (cluster (final r)) !! Name q =
         ActualVersions (cluster s) !! Name q) ∧
    (∀ i q, k < i → utilities group !! i = Some q →
       q ∉ destroyCalls (journal r)).
Proof.
  intros group s k u e Hnd Hk r.
  destruct (failed_call_at_position Destroying group [] s k u e Hnd Hk)
    as (Hu & Hcalls & Hrec & Hkept & Hnot & Hout).
  by repeat split.
Qed.

(** *** The Helm set-up fails *)

(** X4. If [installHelm] fails with [e], [ProvisionUtilityGroup] stops
    there: it returns [e] wrapped with the message of the prerequisite, and
    the call of [installHelm] is its only event, so that no chart
    repository is registered, no utility is called and the cluster record
    is untouched. *)
Theorem installHelm_failure_stops_provisioning :
  ∀ (group : utilityGroup W) (repoOrder : list (string * string)) s w e,
    installHelm helmRepos (world s) = (w, Some e) →
    let r := ProvisionUtilityGroup group repoOrder s in
    outcome r =
      inl (Wrap e "failed to set up Helm as a prerequisite to installing the cluster utilities") ∧
    journal r = [CallInstallHelm helmRepos (Some e)] ∧
    repoAdds (journal r) = [] ∧
    createCalls (journal r) = [] ∧
    persisted (journal r) = [] ∧
    final r = mkState w (cluster s).
Proof.
  intros group repoOrder s w e Hinstall r. unfold r.
  rewrite ProvisionUtilityGroup_steps, Hinstall. by repeat split.
Qed.

Lemma helmRepoAdd_loop_failed (repoOrder : list (string * string)) s n url e :
  let r := forEach (λ repo, wrapping "unable to add helm repos"
                              (callHelmRepoAdd repo)) repoOrder s in
  CallHelmRepoAdd n url (Some e) ∈ journal r →
  outcome r = inl (Wrap e "unable to add helm repos") ∧
  (∃ j', journal r = j' ++ [CallHelmRepoAdd n url (Some e)]) ∧
  ∃ pre post,
    repoOrder = pre ++ (n, url) :: post ∧
    repoAdds (journal r) = pre ++ [(n, url)].
Proof.
  revert s. induction repoOrder as [|[n' url'] rest IH]; intros s;
    cbn [forEach].
  - cbn. intros Hin. by apply elem_of_nil in Hin.
  - unfold bind, wrapping, callHelmRepoAdd, external. cbn [fst snd].
    destruct (helmRepoAdd n' url' (world s)) as [w [e'|]]; run_fields.
    + intros Hin. apply list_elem_of_singleton in Hin.
      injection Hin as -> -> ->. split; [done|].
      split; [by exists []|]. by exists [], rest.
    + specialize (IH (mkState w (cluster s))). cbn zeta in IH.
      destruct (forEach _ rest _) as [s' j' o']. run_fields.
      run_fields_in IH. intros Hin.
      apply elem_of_cons in Hin as [Hin|Hin]; [done|].
      destruct (IH Hin) as (Ho & (j'' & Hj) & pre & post & Hro & Hadds).
      split; [done|]. split.
      * exists (CallHelmRepoAdd n' url' None :: j''). by rewrite Hj.
      * exists ((n', url') :: pre), post. split; [by rewrite Hro|].
        rewrite repoAdds_app, Hadds. done.
Qed.

(** X5. If the registration of a chart repository fails with [e],
    [ProvisionUtilityGroup] returns [e] wrapped with "unable to add helm
    repos"; the failed registration is its last event, so the repositories
    after it in the order of the run are not tried; no utility is called
    and the cluster record is untouched. *)
Theorem helmRepoAdd_failure_stops_provisioning :
  ∀ (group : utilityGroup W) (repoOrder : list (string * string)) s n url e,
    CallHelmRepoAdd n url (Some e)
      ∈ journal (ProvisionUtilityGroup group repoOrder s) →
    let r := ProvisionUtilityGroup group repoOrder s in
    outcome r = inl (Wrap e "unable to add helm repos") ∧
    (∃ j', journal r = j' ++ [CallHelmRepoAdd n url (Some e)]) ∧
    (∃ pre post,
       repoOrder = pre ++ (n, url) :: post ∧
       repoAdds (journal r) = pre ++ [(n, url)]) ∧
    createCalls (journal r) = [] ∧
    persisted (journal r) = [] ∧
    cluster (final r) = cluster s.
Proof.
  intros group repoOrder s n url e. cbn zeta.
  rewrite ProvisionUtilityGroup_steps.
  destruct (installHelm helmRepos (world s)) as [w [e0|]].
  { run_fields. intros Hin. by apply list_elem_of_singleton in Hin. }
  cbn zeta.
  pose proof (helmRepoAdd_loop_failed repoOrder (mkState w (cluster s)) n url e)
    as Hloop.
  destruct (helmRepoAdd_loop repoOrder (mkState w (cluster s)))
    as (Hc & Hhelm & _ & _).
  cbn zeta in Hloop.
  destruct (forEach _ repoOrder _) as [s1 j1 [e1|[]]]; run_fields;
    run_fields_in Hloop; run_fields_in Hc; run_fields_in Hhelm.
  - intros Hin.
    apply elem_of_cons in Hin as [Hin|Hin]; [done|].
    apply elem_of_cons in Hin as [Hin|Hin]; [done|].
    destruct (Hloop Hin) as (Ho & (j' & Hj) & Hpre).
    assert (Hall : Forall helmEvent
                     ([CallInstallHelm helmRepos None;
                       LogInfo "Adding new Helm repos."] ++ j1))
      by by repeat constructor.
    destruct (helmEvent_quiet Provisioning _ Hall) as (Hq1 & _ & Hq3).
    cbn [passResults] in Hq1.
    split; [done|]. split; [|split; [|split; [|split]]].
    + exists ([CallInstallHelm helmRepos None;
               LogInfo "Adding new Helm repos."] ++ j'). by rewrite Hj.
    + done.
    + unfold createCalls. by rewrite Hq1.
    + by rewrite Hq3.
    + done.
  - intros Hin.
    apply elem_of_cons in Hin as [Hin|Hin]; [done|].
    apply elem_of_cons in Hin as [Hin|Hin]; [done|].
    apply elem_of_app in Hin as [Hin|Hin].
    + by destruct (Hloop Hin) as (Ho & _).
    + pose proof (PassRun_not_helm _ _ _ _
                    (forEach_PassRun Provisioning (utilities group) s1)) as Hnh.
      rewrite Forall_forall in Hnh. by destruct (Hnh _ Hin).
Qed.

(** *** The write to the cluster record fails *)

(** X6. If, in either method, the write of a version fails with [e], the
    method returns [e] as it is, without a message around it.  The failed
    write is the last event.  It is the write for a utility whose own call
    went through: that utility and the ones before it were called with
    success, the ones before it have their version recorded, and the ones
    after it are not visited. *)
Theorem failed_write_is_returned_unwrapped :
  ∀ pass (group : utilityGroup W) (repoOrder : list (string * string)) s n v e,
    CallSetUtilityActualVersion n v (Some e)
      ∈ journal (runGroup pass group repoOrder s) →
    let r := runGroup pass group repoOrder s in
    outcome r = inl e ∧
    (∃ j', journal r = j' ++ [CallSetUtilityActualVersion n v (Some e)]) ∧
    ∃ pre u post,
      utilities group = pre ++ u :: post ∧ n = Name u ∧
      passResults pass (journal r) = (λ p, (p, None)) <$> (pre ++ [u]) ∧
      (reported (journal r)).*1 = pre ++ [u] ∧
      (persisted (journal r)).*1 = Name <$> pre.
Proof.
  intros pass group repoOrder s n v e.
  destruct (runGroup_split pass group repoOrder s)
    as (s1 & j1 & Hhelm & _ & _ & [[e' Hr]|(r' & Hrun & Hr & _)]);
    cbn zeta; rewrite Hr; run_fields.
  - intros Hin. rewrite Forall_forall in Hhelm. by destruct (Hhelm _ Hin).
  - intros Hin. apply elem_of_app in Hin as [Hin|Hin].
    { rewrite Forall_forall in Hhelm. by destruct (Hhelm _ Hin). }
    destruct (PassRun_write_failed _ _ _ _ _ _ _ Hrun Hin)
      as (Ho & (j' & Hj) & pre & u & post & Hus & Hn & Hres & Hrep & Hper).
    destruct (helmEvent_quiet pass j1 Hhelm) as (Hq1 & Hq2 & Hq3).
    split; [done|]. split.
    + exists (j1 ++ j'). by rewrite Hj, app_assoc.
    + exists pre, u, post.
      rewrite passResults_app, reported_app, persisted_app, Hq1, Hq2, Hq3.
      by repeat split.
Qed.

(** *** What is written, and where *)

(** X7. Every run of either method has this journal: events of the Helm
    set-up (none when destroying); then, for each utility that went
    through, in the order of the group, its call, the reading of its
    version and the write of that version under its name, one right after
    the other; then the ending.  The result of the method is the one of
    the ending when the set-up went well, and the actual versions of the
    cluster record are those of the start with the versions of the
    utilities that went through written in order. *)
Theorem journal_shape :
  ∀ pass (group : utilityGroup W) (repoOrder : list (string * string)) s,
    let r := runGroup pass group repoOrder s in
    ∃ setup done x,
      journal r = setup ++ blocks pass done ++ endingEvents pass x ∧
      Forall helmEvent setup ∧
      (pass = Destroying → setup = []) ∧
      (∃ rest, utilities group = done.*1 ++ endingAt x ++ rest ∧
               (outcome r = inr tt → rest = [] ∧ x = Completed)) ∧
      (outcome r = endingOutcome pass x ∨
       (∃ e, outcome r = inl e) ∧ done = [] ∧ x = Completed) ∧
      ActualVersions (cluster (final r)) =
        replay ((λ uv : Utility W * string, (Name uv.1, uv.2)) <$> done)
          (ActualVersions (cluster s)).
Proof.
  intros pass group repoOrder s.
  destruct (runGroup_split pass group repoOrder s)
    as (s1 & j1 & Hhelm & Hc & _ & [[e' Hr]|(r' & Hrun & Hr & _)]);
    cbn zeta; rewrite Hr; run_fields.
  - exists j1, [], Completed. rewrite app_nil_r.
    split; [done|]. split; [done|]. split.
    { intros ->. cbn [runGroup] in Hr. unfold DestroyUtilityGroup in Hr.
      pose proof (PassRun_not_helm _ _ _ _
                    (forEach_PassRun Destroying (utilities group) s)) as Hnh.
      cbn [passBody] in Hnh. rewrite Hr in Hnh. run_fields_in Hnh.
      destruct j1 as [|ev j1]; [done|].
      apply Forall_cons in Hhelm as [Hev _].
      apply Forall_cons in Hnh as [Hnev _]. done. }
    split; [by exists (utilities group)|]. split; [right; by eauto|].
    by rewrite Hc.
  - destruct (PassRun_shape _ _ _ _ Hrun)
      as (done & x & Hj & Ho & (rest & Hus & Hrest) & Hav).
    exists j1, done, x. rewrite Hj.
    split; [done|]. split; [done|]. split.
    { intros ->. cbn [runGroup] in Hr. unfold DestroyUtilityGroup in Hr.
      pose proof (PassRun_not_helm _ _ _ _
                    (forEach_PassRun Destroying (utilities group) s)) as Hnh.
      cbn [passBody] in Hnh. rewrite Hr in Hnh. run_fields_in Hnh.
      apply Forall_app in Hnh as [Hnh _].
      destruct j1 as [|ev j1]; [done|].
      apply Forall_cons in Hhelm as [Hev _].
      apply Forall_cons in Hnh as [Hnev _]. done. }
    split; [|split; [by left|by rewrite Hav, Hc]].
    exists rest. split; [done|]. intros Hok. rewrite Ho in Hok.
    destruct x; try done. split; [by apply Hrest|done].
Qed.

Lemma runGroup_persisted_prefix pass (group : utilityGroup W)
    (repoOrder : list (string * string)) s :
  let r := runGroup pass group repoOrder s in
  (persisted (journal r)).*1 `prefix_of` Name <$> utilities group ∧
  ActualVersions (cluster (final r)) =
    replay (persisted (journal r)) (ActualVersions (cluster s)) ∧
  DesiredVersions (cluster (final r)) = DesiredVersions (cluster s).
Proof.
  destruct (runGroup_split pass group repoOrder s)
    as (s1 & j1 & Hhelm & Hc & _ & [[e' Hr]|(r' & Hrun & Hr & _)]);
    cbn zeta; rewrite Hr; run_fields;
    destruct (helmEvent_quiet pass j1 Hhelm) as (_ & _ & Hq3).
  - rewrite Hq3, Hc. split; [apply prefix_nil|done].
  - rewrite persisted_app, Hq3. cbn [app].
    destruct (PassRun_cluster _ _ _ _ Hrun) as [Hav Hdv].
    split; [by eapply PassRun_persisted_prefix|].
    by rewrite Hav, Hdv, Hc.
Qed.

(** X8. Whatever the outcome, a method of the group writes only under the
    names of its utilities: the actual version of every other name is the
    one of the start, and no desired version changes. *)
Theorem other_entries_are_kept :
  ∀ pass (group : utilityGroup W) (repoOrder : list (string * string)) s n,
    n ∉ Name <$> utilities group →
    let r := runGroup pass group repoOrder s in
    ActualVersions (cluster (final r)) !! n = ActualVersions (cluster s) !! n ∧
    DesiredVersions (cluster (final r)) = DesiredVersions (cluster s).
Proof.
  intros pass group repoOrder s n Hn r.
  destruct (runGroup_persisted_prefix pass group repoOrder s)
    as (Hpre & Hav & Hdv).
  fold r in Hpre, Hav, Hdv. split; [|done].
  rewrite Hav. apply replay_lookup_other. intros Hin. apply Hn.
  destruct Hpre as [k ->]. apply elem_of_app. by left.
Qed.

(** X9. After a method that returns [nil], on a group whose utilities
    have distinct names, every utility of the group has on the cluster
    record the version it reported when it was visited. *)
Theorem success_records_every_utility :
  ∀ pass (group : utilityGroup W) (repoOrder : list (string * string)) s,
    NoDup (Name <$> utilities group) →
    outcome (runGroup pass group repoOrder s) = inr tt →
    let r := runGroup pass group repoOrder s in
    (reported (journal r)).*1 = utilities group ∧
    ∀ u v, (u, v) ∈ reported (journal r) →
      ActualVersions (cluster (final r)) !! Name u = Some v.
Proof.
  intros pass group repoOrder s Hnd Hok r. fold r in Hok.
  destruct (runGroup_journal pass group repoOrder s)
    as [(e & Ho & _)
       |(s1 & j1 & r' & Hrun & Hc & _ & _ & _ & Hf & Ho & _ & Hrep & Hper)];
    fold r in Ho; [congruence|].
  fold r in Hf, Hrep, Hper. rewrite Ho in Hok.
  destruct (PassRun_success_reported _ _ _ _ Hrun Hok) as [Hus Hwrites].
  destruct (PassRun_cluster _ _ _ _ Hrun) as [Hav _].
  rewrite Hrep, Hf, Hav, Hc. split; [done|].
  intros u v Huv. apply replay_lookup_written.
  - by rewrite (persisted_names _ Hwrites), Hus.
  - rewrite Hwrites. apply list_elem_of_fmap. by exists (u, v).
Qed.

(** *** What a method does not do *)

Lemma helmRepoAdd_loop_installs (repoOrder : list (string * string)) s :
  installResults
    (journal (forEach (λ repo, wrapping "unable to add helm repos"
                                 (callHelmRepoAdd repo)) repoOrder s)) = [].
Proof.
  revert s. induction repoOrder as [|[n url] rest IH]; intros s;
    cbn [forEach]; [done|].
  unfold bind, wrapping, callHelmRepoAdd, external. cbn [fst snd].
  destruct (helmRepoAdd n url (world s)) as [w [e|]]; run_fields; [done|].
  specialize (IH (mkState w (cluster s))).
  destruct (forEach _ rest _) as [s' j' o']. run_fields. run_fields_in IH.
  exact IH.
Qed.

(** X10. [ProvisionUtilityGroup] never calls [Destroy], and calls
    [installHelm] once, whatever happens next.  [DestroyUtilityGroup]
    never calls [CreateOrUpgrade], [installHelm] or [helmRepoAdd]. *)
Theorem methods_keep_to_their_calls :
  (∀ (group : utilityGroup W) (repoOrder : list (string * string)) s,
     destroyResults (journal (ProvisionUtilityGroup group repoOrder s)) = [] ∧
     length (installResults
               (journal (ProvisionUtilityGroup group repoOrder s))) = 1) ∧
  (∀ (group : utilityGroup W) s,
     createResults (journal (DestroyUtilityGroup group s)) = [] ∧
     installResults (journal (DestroyUtilityGroup group s)) = [] ∧
     repoAdds (journal (DestroyUtilityGroup group s)) = []).
Proof.
  split.
  - intros group repoOrder s. split.
    + destruct (runGroup_split Provisioning group repoOrder s)
        as (s1 & j1 & Hhelm & _ & _ & [[e' Hr]|(r' & Hrun & Hr & _)]);
        cbn [runGroup] in Hr; rewrite Hr; run_fields;
        destruct (helmEvent_quiet Destroying j1 Hhelm) as (Hq & _ & _);
        cbn [passResults] in Hq; [done|].
      pose proof (PassRun_other _ _ _ _ Hrun) as Hother.
      cbn [otherPass passResults] in Hother.
      unfold destroyResults in *. by rewrite omap_app, Hq, Hother.
    + rewrite ProvisionUtilityGroup_steps.
      destruct (installHelm helmRepos (world s)) as [w [e|]]; [done|].
      cbn zeta.
      pose proof (helmRepoAdd_loop_installs repoOrder (mkState w (cluster s)))
        as Hloop.
      pose proof (forEach_PassRun Provisioning (utilities group)) as Hrun.
      cbn [passBody] in Hrun.
      destruct (forEach _ repoOrder _) as [s1 j1 [e1|[]]]; run_fields;
        run_fields_in Hloop.
      * unfold installResults in *. rewrite omap_app, Hloop. done.
      * destruct (not_helm_quiet _ (PassRun_not_helm _ _ _ _ (Hrun s1)))
          as [_ Hins].
        unfold installResults in *. rewrite !omap_app, Hloop, Hins. done.
  - intros group s. unfold DestroyUtilityGroup.
    pose proof (forEach_PassRun Destroying (utilities group) s) as Hrun.
    cbn [passBody] in Hrun.
    pose proof (PassRun_other _ _ _ _ Hrun) as Hother.
    destruct (not_helm_quiet _ (PassRun_not_helm _ _ _ _ Hrun)) as [Hadds Hins].
    by repeat split.
Qed.

Lemma helmRepoAdd_loop_success (repoOrder : list (string * string)) s :
  let r := forEach (λ repo, wrapping "unable to add helm repos"
                              (callHelmRepoAdd repo)) repoOrder s in
  outcome r = inr tt →
  journal r = (λ nu, CallHelmRepoAdd nu.1 nu.2 None) <$> repoOrder.
Proof.
  revert s. induction repoOrder as [|[n url] rest IH]; intros s;
    cbn [forEach]; [done|].
  unfold bind, wrapping, callHelmRepoAdd, external. cbn [fst snd].
  destruct (helmRepoAdd n url (world s)) as [w [e|]]; run_fields; [done|].
  specialize (IH (mkState w (cluster s))). cbn zeta in IH.
  destruct (forEach _ rest _) as [s' j' o']. run_fields. run_fields_in IH.
  intros Hok. by rewrite (IH Hok).
Qed.

(** X11. If a utility is called at all by [ProvisionUtilityGroup], then the
    Helm set-up came first and went well: the journal starts with the
    successful [installHelm], the log line, and one successful
    registration for each repository in the order of the run, and no
    registration comes after. *)
Theorem utilities_wait_for_the_helm_setup :
  ∀ (group : utilityGroup W) (repoOrder : list (string * string)) s u err,
    CallCreateOrUpgrade u err
      ∈ journal (ProvisionUtilityGroup group repoOrder s) →
    ∃ j2,
      journal (ProvisionUtilityGroup group repoOrder s) =
        [CallInstallHelm helmRepos None; LogInfo "Adding new Helm repos."] ++
        ((λ nu, CallHelmRepoAdd nu.1 nu.2 None) <$> repoOrder) ++ j2 ∧
      repoAdds j2 = [] ∧ installResults j2 = [].
Proof.
  intros group repoOrder s u err. rewrite ProvisionUtilityGroup_steps.
  destruct (installHelm helmRepos (world s)) as [w [e|]].
  { run_fields. intros Hin. by apply list_elem_of_singleton in Hin. }
  cbn zeta.
  destruct (helmRepoAdd_loop repoOrder (mkState w (cluster s)))
    as (_ & Hhelm & _ & _).
  pose proof (helmRepoAdd_loop_success repoOrder (mkState w (cluster s)))
    as Hsucc.
  pose proof (forEach_PassRun Provisioning (utilities group)) as Hrun.
  cbn [passBody] in Hrun. cbn zeta in Hsucc.
  destruct (forEach _ repoOrder _) as [s1 j1 [e1|[]]]; run_fields;
    run_fields_in Hhelm; run_fields_in Hsucc; intros Hin.
  - apply elem_of_cons in Hin as [Hin|Hin]; [done|].
    apply elem_of_cons in Hin as [Hin|Hin]; [done|].
    rewrite Forall_forall in Hhelm. by destruct (Hhelm _ Hin).
  - exists (journal (forEach upgradeUtility (utilities group) s1)).
    rewrite (Hsucc eq_refl). split; [done|].
    apply not_helm_quiet. by eapply PassRun_not_helm.
Qed.

(** *** Which error the construction returns *)

(** X12. [newUtilityGroupHandle] returns the error of the first step that
    fails, in the order nginx, prometheus, fluentbit, teleport.  The error
    of a lookup of a desired version is returned as it is; the error of a
    constructor is wrapped with a message that names the handle. *)
Theorem newUtilityGroupHandle_first_error :
  ∀ c : Cluster,
    (∀ e, DesiredUtilityVersion lookupFault c NginxCanonicalName = inl e →
       newUtilityGroupHandle c = (None, Some e)) ∧
    (∀ v1, DesiredUtilityVersion lookupFault c NginxCanonicalName = inr v1 →
       (∀ e, newNginxHandle v1 = inl e →
          newUtilityGroupHandle c =
            (None, Some (Wrap e "failed to get handle for NGINX"))) ∧
       (∀ nginx, newNginxHandle v1 = inr nginx →
          (∀ e, newPrometheusHandle c = inl e →
             newUtilityGroupHandle c =
               (None, Some (Wrap e "failed to get handle for Prometheus"))) ∧
          (∀ prometheus, newPrometheusHandle c = inr prometheus →
             (∀ e, DesiredUtilityVersion lookupFault c FluentbitCanonicalName
                     = inl e →
                newUtilityGroupHandle c = (None, Some e)) ∧
             (∀ v3, DesiredUtilityVersion lookupFault c FluentbitCanonicalName
                      = inr v3 →
                (∀ e, newFluentbitHandle v3 = inl e →
                   newUtilityGroupHandle c =
                     (None, Some (Wrap e "failed to get handle for Fluentbit"))) ∧
                (∀ fluentbit, newFluentbitHandle v3 = inr fluentbit →
                   (∀ e, DesiredUtilityVersion lookupFault c
                           TeleportCanonicalName = inl e →
                      newUtilityGroupHandle c = (None, Some e)) ∧
                   (∀ v4 e, DesiredUtilityVersion lookupFault c
                              TeleportCanonicalName = inr v4 →
                      newTeleportHandle c v4 = inl e →
                      newUtilityGroupHandle c =
                        (None,
                         Some (Wrap e "failed to get handle for Teleport")))))))).
Proof.
  intros c. unfold newUtilityGroupHandle.
  split; [by intros e ->|]. intros v1 ->.
  split; [by intros e ->|]. intros nginx ->.
  split; [by intros e ->|]. intros prometheus ->.
  split; [by intros e ->|]. intros v3 ->.
  split; [by intros e ->|]. intros fluentbit ->.
  split; [by intros e ->|]. by intros v4 e -> ->.
Qed.

End More.

(** *** On the small cluster *)

Import scenario.

Lemma groupF_distinct : NoDup (Name <$> utilities groupF).
Proof. apply (bool_decide_unpack _). vm_compute. exact I. Qed.

Lemma groupD_distinct : NoDup (Name <$> utilities groupD).
Proof. apply (bool_decide_unpack _). vm_compute. exact I. Qed.

(** X3 on [groupF]: the removal of prometheus fails; nginx is removed and
    recorded as absent, and teleport is left alone. *)
Lemma failed_destroy_leaves_later_utilities_alone_witness :
  NoDup (Name <$> utilities groupF) ∧
  destroyResults (journal (DestroyUtilityGroup groupF startD)) !! 1
    = Some (broken "prometheus" "10.4.0" "helm timed out",
            Some (New "helm timed out")) ∧
  outcome (DestroyUtilityGroup groupF startD)
    = inl (Wrap (New "helm timed out")
             "failed to destroy one of the cluster utilities") ∧
  destroyCalls (journal (DestroyUtilityGroup groupF startD))
    = take 2 (utilities groupF).
Proof.
  assert (Hfail :
    destroyResults (journal (DestroyUtilityGroup groupF startD)) !! 1
      = Some (broken "prometheus" "10.4.0" "helm timed out",
              Some (New "helm timed out"))) by reflexivity.
  split; [exact groupF_distinct|]. split; [exact Hfail|].
  destruct (failed_destroy_leaves_later_utilities_alone groupF startD 1 _ _
              groupF_distinct Hfail) as (Hout & _ & Hcalls & _).
  split; [exact Hout | exact Hcalls].
Defined.

(** X4 with a Helm that cannot be installed. *)
Lemma installHelm_failure_stops_provisioning_witness :
  installHelm (Collaborators := noHelm) helmRepos (world startD)
    = (world startD, Some (New "tiller is not ready")) ∧
  journal (ProvisionUtilityGroup (Collaborators0 := noHelm)
             groupD someOrder startD)
    = [CallInstallHelm helmRepos (Some (New "tiller is not ready"))].
Proof.
  assert (Hinstall :
    installHelm (Collaborators := noHelm) helmRepos (world startD)
      = (world startD, Some (New "tiller is not ready"))) by reflexivity.
  split; [exact Hinstall|].
  destruct (installHelm_failure_stops_provisioning (Collaborators0 := noHelm)
              groupD someOrder startD _ _ Hinstall) as (_ & Hj & _).
  exact Hj.
Defined.

(** X5 with a chart repository that cannot be reached. *)
Lemma helmRepoAdd_failure_stops_provisioning_witness :
  CallHelmRepoAdd "chartmuseum"
      "https://chartmuseum.internal.core.cloud.mattermost.com"
      (Some (New "repository unreachable"))
    ∈ journal (ProvisionUtilityGroup (Collaborators0 := noChartmuseum)
                 groupD someOrder startD) ∧
  outcome (ProvisionUtilityGroup (Collaborators0 := noChartmuseum)
             groupD someOrder startD)
    = inl (Wrap (New "repository unreachable") "unable to add helm repos") ∧
  createCalls (journal (ProvisionUtilityGroup (Collaborators0 := noChartmuseum)
                          groupD someOrder startD)) = [].
Proof.
  assert (Hin :
    CallHelmRepoAdd "chartmuseum"
        "https://chartmuseum.internal.core.cloud.mattermost.com"
        (Some (New "repository unreachable"))
      ∈ journal (ProvisionUtilityGroup (Collaborators0 := noChartmuseum)
                   groupD someOrder startD)).
  { apply (list_elem_of_lookup_2 _ 4). reflexivity. }
  split; [exact Hin|].
  destruct (helmRepoAdd_failure_stops_provisioning
              (Collaborators0 := noChartmuseum) groupD someOrder startD _ _ _ Hin)
    as (Hout & _ & _ & Hcalls & _).
  split; [exact Hout | exact Hcalls].
Defined.

(** X6 with a cluster record that refuses the write for prometheus. *)
Lemma failed_write_is_returned_unwrapped_witness :
  CallSetUtilityActualVersion "prometheus" "10.4.0"
      (Some (New "metadata is not valid JSON"))
    ∈ journal (runGroup (Collaborators0 := noWrite) Provisioning
                 groupD someOrder startD) ∧
  outcome (runGroup (Collaborators0 := noWrite) Provisioning
             groupD someOrder startD)
    = inl (New "metadata is not valid JSON").
Proof.
  assert (Hin :
    CallSetUtilityActualVersion "prometheus" "10.4.0"
        (Some (New "metadata is not valid JSON"))
      ∈ journal (runGroup (Collaborators0 := noWrite) Provisioning
                   groupD someOrder startD)).
  { apply (list_elem_of_lookup_2 _ 10). reflexivity. }
  split; [exact Hin|].
  by destruct (failed_write_is_returned_unwrapped (Collaborators0 := noWrite)
                 Provisioning groupD someOrder startD _ _ _ Hin) as (Hout & _).
Defined.

(** X8 on [groupD]: an entry under another name is not touched. *)
Lemma other_entries_are_kept_witness :
  ("grafana" ∉ Name <$> utilities groupD) ∧
  ActualVersions
    (cluster (final (runGroup Provisioning groupD someOrder
                       (mkState ∅ (mkCluster ∅ {[ "grafana" := "7.0.3" ]})))))
    !! "grafana" = Some "7.0.3".
Proof.
  assert (Hn : "grafana" ∉ Name <$> utilities groupD).
  { apply (bool_decide_unpack _). vm_compute. exact I. }
  split; [exact Hn|].
  destruct (other_entries_are_kept Provisioning groupD someOrder
              (mkState ∅ (mkCluster ∅ {[ "grafana" := "7.0.3" ]}))
              "grafana" Hn) as [Hav _].
  rewrite Hav. reflexivity.
Defined.

(** X9 on [groupD]. *)
Lemma success_records_every_utility_witness :
  NoDup (Name <$> utilities groupD) ∧
  outcome (runGroup Provisioning groupD someOrder startD) = inr tt ∧
  (reported (journal (runGroup Provisioning groupD someOrder startD))).*1
    = utilities groupD.
Proof.
  assert (Hok : outcome (runGroup Provisioning groupD someOrder startD) = inr tt)
    by reflexivity.
  split; [exact groupD_distinct|]. split; [exact Hok|].
  by destruct (success_records_every_utility Provisioning groupD someOrder
                 startD groupD_distinct Hok) as [Hrep _].
Defined.

(** X11 on [groupD]. *)
Lemma utilities_wait_for_the_helm_setup_witness :
  CallCreateOrUpgrade (chart "nginx" "2.15.0") None
    ∈ journal (ProvisionUtilityGroup groupD someOrder startD) ∧
  ∃ j2,
    journal (ProvisionUtilityGroup groupD someOrder startD) =
      [CallInstallHelm helmRepos None; LogInfo "Adding new Helm repos."] ++
      ((λ nu, CallHelmRepoAdd nu.1 nu.2 None) <$> someOrder) ++ j2 ∧
    repoAdds j2 = [] ∧ installResults j2 = [].
Proof.
  assert (Hin : CallCreateOrUpgrade (chart "nginx" "2.15.0") None
                ∈ journal (ProvisionUtilityGroup groupD someOrder startD)).
  { apply (list_elem_of_lookup_2 _ 5). reflexivity. }
  split; [exact Hin|].
  exact (utilities_wait_for_the_helm_setup groupD someOrder startD _ _ Hin).
Defined.

(** X12 with a Fluentbit handle that cannot be built. *)
Lemma newUtilityGroupHandle_first_error_witness :
  newUtilityGroupHandle (Collaborators0 := noFluentbit) clusterD
    = (None,
       Some (Wrap (New "kops command is nil")
               "failed to get handle for Fluentbit")).
Proof.
  destruct (newUtilityGroupHandle_first_error (Collaborators0 := noFluentbit)
              clusterD) as [_ H1].
  destruct (H1 "2.15.0" eq_refl) as [_ H2].
  destruct (H2 (chart "nginx" "2.15.0") eq_refl) as [_ H3].
  destruct (H3 (chart "prometheus" "10.4.0") eq_refl) as [_ H4].
  destruct (H4 "2.8.7" eq_refl) as [H5 _].
  exact (H5 (New "kops command is nil") eq_refl).
Defined.

End group_more.
